(** * memc_load (Go): the concurrent loader of device records into memcached

    A shallow embedding of [main.go]: the line parser [parseAppsInstalled],
    the write task [insertAppsInstalled], the per-file pipeline
    [processFile] (a scanning goroutine, a counting goroutine and one
    goroutine per record, under a semaphore channel, a WaitGroup and a
    buffered result channel) and the orchestration of [main] (stat, sort by
    modification time, sequential processing).

    Goroutines are modelled by an interleaving semantics: every goroutine has
    a program counter and an executable step function, and a schedule (a list
    of actions) drives the whole state. *)

From Stdlib Require Import Ascii String ZArith Floats.
From stdpp Require Import gmap strings list sorting.

Open Scope Z_scope.

(** ** Go library functions used by the program

    [strings.TrimSpace], [strings.Split] and [strconv.ParseUint] are modelled
    from their Go definitions. A Go string is a sequence of bytes: here a
    [string] of 8-bit [ascii] characters. *)

Module GoStrings.

Definition byte (n : nat) : ascii := ascii_of_nat n.

Definition TAB : string := String (byte 9) "".

(** The ASCII white space of [strings.TrimSpace]'s fast path:
    ['\t', '\n', '\v', '\f', '\r', ' ']. *)
Definition asciiSpace (c : ascii) : bool :=
  let n := nat_of_ascii c in
  ((9 <=? n)%nat && (n <=? 13)%nat) || (n =? 32)%nat.

(** [unicode.IsSpace] on the runes above U+007F, by their UTF-8 encoding:
    U+0085 and U+00A0 take two bytes. *)
Definition space2 (c1 c2 : ascii) : bool :=
  (nat_of_ascii c1 =? 194)%nat
  && ((nat_of_ascii c2 =? 133)%nat || (nat_of_ascii c2 =? 160)%nat).

(** U+1680, U+2000..U+200A, U+2028, U+2029, U+202F, U+205F and U+3000 take
    three bytes. *)
Definition space3 (c1 c2 c3 : ascii) : bool :=
  let a := nat_of_ascii c1 in
  let b := nat_of_ascii c2 in
  let c := nat_of_ascii c3 in
  ((a =? 225) && (b =? 154) && (c =? 128))%nat
  || ((a =? 226) && (b =? 128)
      && (((128 <=? c) && (c <=? 138)) || (c =? 168) || (c =? 169) || (c =? 175)))%nat
  || ((a =? 226) && (b =? 129) && (c =? 159))%nat
  || ((a =? 227) && (b =? 128) && (c =? 128))%nat.

(** Dropping the leading white-space runes. *)
Fixpoint trimLeft (s : list ascii) : list ascii :=
  match s with
  | [] => []
  | c1 :: r1 =>
      if asciiSpace c1 then trimLeft r1
      else match r1 with
           | [] => s
           | c2 :: r2 =>
               if space2 c1 c2 then trimLeft r2
               else match r2 with
                    | [] => s
                    | c3 :: r3 => if space3 c1 c2 c3 then trimLeft r3 else s
                    end
           end
  end.

(** Dropping the trailing white-space runes, on the reversed bytes: the last
    rune is read backwards, so its bytes come in the opposite order. *)
Fixpoint trimRightRev (s : list ascii) : list ascii :=
  match s with
  | [] => []
  | c1 :: r1 =>
      if asciiSpace c1 then trimRightRev r1
      else match r1 with
           | [] => s
           | c2 :: r2 =>
               if space2 c2 c1 then trimRightRev r2
               else match r2 with
                    | [] => s
                    | c3 :: r3 => if space3 c3 c2 c1 then trimRightRev r3 else s
                    end
           end
  end.

(** [strings.TrimSpace]. *)
Definition TrimSpace (s : string) : string :=
  string_of_list_ascii
    (rev (trimRightRev (rev (trimLeft (list_ascii_of_string s))))).

(** [strings.Split(s, sep)] for a separator of one byte: one more piece
    than there are separators, so [Split "" sep = [""]]. *)
Fixpoint Split (s : string) (sep : ascii) : list string :=
  match s with
  | EmptyString => [EmptyString]
  | String c r =>
      if decide (c = sep) then EmptyString :: Split r sep
      else match Split r sep with
           | h :: t => String c h :: t
           | [] => [String c EmptyString]
           end
  end.

Definition digit (c : ascii) : option Z :=
  let n := nat_of_ascii c in
  if ((48 <=? n) && (n <=? 57))%nat then Some (Z.of_nat n - 48) else None.

(** The loop of [strconv.ParseUint(s, 10, 32)] over the bytes of [s]:
    [cutoff] is [maxUint64/10 + 1] and [maxVal] is [1<<32 - 1]; a byte that
    is no decimal digit is a syntax error, a value above [maxVal] a range
    error. *)
Definition cutoff : Z := 18446744073709551615 / 10 + 1.
Definition maxVal : Z := 4294967295.

Fixpoint parseUintLoop (s : string) (n : Z) : option Z :=
  match s with
  | EmptyString => Some n
  | String c r =>
      match digit c with
      | None => None
      | Some d =>
          if cutoff <=? n then None
          else let n1 := n * 10 + d in
               if maxVal <? n1 then None else parseUintLoop r n1
      end
  end.

(** [strconv.ParseUint(s, 10, 32)]: [None] stands for a non-nil error. *)
Definition ParseUint32 (s : string) : option Z :=
  match s with
  | EmptyString => None
  | _ => parseUintLoop s 0
  end.

End GoStrings.

Import GoStrings.

(** ** Data model *)

(** [float64] is the kernel's binary64; Go's [int] is a 64-bit signed
    integer, a [Z] whose increment wraps around. *)
Definition wrap64 (z : Z) : Z := (z + 2 ^ 63) mod 2 ^ 64 - 2 ^ 63.

(** [float64(n)] for a counter [n]: the nearest binary64, ties to even
    (exact below [2^53]). *)
Definition float64_of_int (n : Z) : float :=
  if n <? 0 then PrimFloat.opp (PrimFloat.of_uint63 (Uint63.of_Z (- n)))
  else PrimFloat.of_uint63 (Uint63.of_Z n).

(** [normalErrRate = 0.01]: the untyped constant, converted to [float64] where
    it is compared, is the binary64 nearest to one hundredth. *)
Definition normalErrRate : float := 0x1.47ae147ae147bp-7%float.

Record AppsInstalled := {
  DevType : string;
  DevID : string;
  Lat : float;
  Lon : float;
  Apps : list Z   (* []uint32 *)
}.

(** The protobuf message built by [insertAppsInstalled]. *)
Record UserApps := {
  ua_Lat : float;
  ua_Lon : float;
  ua_Apps : list Z
}.

(** [MemcClient]: the connection handle is opaque, only [addr] is read. *)
Record MemcClient := { addr : string }.

(** The errors [parseAppsInstalled] returns, one per [fmt.Errorf]; the names
    are those of the specification's taxonomy. *)
Inductive ParseError :=
| MalformedLine        (* fewer than five fields *)
| MissingIdentity      (* empty dev_type or dev_id *)
| InvalidCoordinateLat (* lat does not parse *)
| InvalidCoordinateLon (* lon does not parse *).

(** The errors [insertAppsInstalled] returns. *)
Inductive InsertError :=
| SerializationError
| BackendWriteError (server : string).

(** One constructor per [log.Printf] of the program. *)
Inductive LogEntry :=
| LogProcessing (filename : string)                 (* processFile, entry *)
| LogOpenError (filename : string)                  (* os.Open failed *)
| LogGzipError (filename : string)                  (* gzip.NewReader failed *)
| LogNotAllDigits (line : string)                   (* an app id is no number *)
| LogUnknownDevice (devType : string)               (* no client for the tag *)
| LogDryRun (server key : string) (lat lon : float) (apps : list Z)
| LogInsertError (e : InsertError)                  (* a write task failed *)
| LogReadError (filename : string)                  (* scanner.Err() *)
| LogAcceptable (errRate : float)                   (* successful load *)
| LogHighErrors (errRate threshold : float)         (* failed load *)
| LogStatError (file : string)                      (* os.Stat failed *)
| LogStarted (pattern : string) (dry : bool)
| LogFinished.

(** ** What the program takes from its libraries

    [strconv.ParseFloat(s, 64)] and [proto.Marshal] ([None] for a non-nil
    error), and the path functions of [path/filepath]. The theorems hold for
    every implementation of this interface. *)
Class Extern := {
  ParseFloat : string → option float;
  Marshal : UserApps → option (list Byte.byte);
  filepath_Dir : string → string;
  filepath_Base : string → string;
  filepath_Join : string → string → string
}.

(** ** [parseAppsInstalled] *)

Section Parser.
Context `{Extern}.

(** The loop over [appStrs]: the list of apps and the diagnostics logged. *)
Fixpoint parseApps (line : string) (appStrs : list string)
    (apps : list Z) (lg : list LogEntry) : list Z * list LogEntry :=
  match appStrs with
  | [] => (apps, lg)
  | appStr :: rest =>
      let appStr := TrimSpace appStr in
      if decide (appStr = "") then parseApps line rest apps lg
      else match ParseUint32 appStr with
           | None => parseApps line rest apps (lg ++ [LogNotAllDigits line])
           | Some app => parseApps line rest (apps ++ [app]) lg
           end
  end.

Definition parseAppsInstalled (line : string)
    : (ParseError + AppsInstalled) * list LogEntry :=
  let parts := Split (TrimSpace line) (byte 9) in
  match parts with
  | devType :: devID :: latStr :: lonStr :: rawApps :: _ =>
      if decide (devType = "" ∨ devID = "") then (inl MissingIdentity, [])
      else match ParseFloat latStr with
           | None => (inl InvalidCoordinateLat, [])
           | Some lat =>
               match ParseFloat lonStr with
               | None => (inl InvalidCoordinateLon, [])
               | Some lon =>
                   let '(apps, lg) :=
                     parseApps line (Split rawApps ",") [] [] in
                   (inr {| DevType := devType; DevID := devID;
                           Lat := lat; Lon := lon; Apps := apps |}, lg)
               end
           end
  | _ => (inl MalformedLine, [])   (* len(parts) < 5 *)
  end.

End Parser.

(** ** An implementation of the interface for the worked examples

    [decimalFloat] reads the plain decimal literals [digits] and
    [digits.digits] (at most fifteen digits in all), the way
    [strconv.ParseFloat] does on its exact path: the digits as an integer,
    divided by the power of ten. The examples use no other literal; it
    rejects the rest. [Marshal] always succeeds (the payload plays no part in
    the examples). *)
Module Examples.

Fixpoint digitsValue (s : string) (acc : Z) : option Z :=
  match s with
  | EmptyString => Some acc
  | String c r =>
      match digit c with
      | Some d => digitsValue r (acc * 10 + d)
      | None => None
      end
  end.

Definition decimalFloat (s : string) : option float :=
  match Split s "." with
  | [i] =>
      if decide (i = "" ∨ 15 < String.length i)%nat then None
      else float64_of_int <$> digitsValue i 0
  | [i; f] =>
      if decide (i = "" ∨ f = "" ∨ 15 < String.length i + String.length f)%nat
      then None
      else m ← digitsValue (i +:+ f) 0;
           Some (PrimFloat.div (float64_of_int m)
                   (float64_of_int (10 ^ Z.of_nat (String.length f))))
  | _ => None
  end.

(** Paths of the examples are bare file names: the directory is ["."], and
    joining ["."] with a name gives the name. *)
Definition extern : Extern := {|
  ParseFloat := decimalFloat;
  Marshal := λ _, Some [];
  filepath_Dir := λ _, ".";
  filepath_Base := λ p, p;
  filepath_Join := λ _ b, b
|}.

(** The fields of a line, joined by tabs. *)
Fixpoint tabbed (fields : list string) : string :=
  match fields with
  | [] => ""
  | [f] => f
  | f :: rest => f +:+ TAB +:+ tabbed rest
  end.

End Examples.

Import Examples.

(** ** The file system the program works on *)

Inductive Body :=
| NotGzip                                        (* gzip.NewReader fails *)
| Gzip (lines : list string) (readError : bool)  (* the lines the scanner
                                                    yields, and whether it
                                                    ends on an error *).

Record File := {
  modTime : Z;          (* os.Stat(...).ModTime(), in nanoseconds *)
  readable : bool;      (* os.Open succeeds *)
  body : Body
}.

(** [locked]: the paths the operating system refuses to rename (a directory
    without write permission, say). *)
Record World := {
  files : gmap string File;
  locked : gset string
}.

Definition os_Stat (w : World) (path : string) : option Z :=
  modTime <$> files w !! path.

Definition os_Open (w : World) (path : string) : option File :=
  match files w !! path with
  | Some f => if readable f then Some f else None
  | None => None
  end.

(** [os.Rename]: the world after the call and whether the error is nil. *)
Definition os_Rename (w : World) (oldpath newpath : string) : World * bool :=
  match files w !! oldpath with
  | Some f =>
      if decide (oldpath ∈ locked w) then (w, false)
      else ({| files := <[newpath := f]> (delete oldpath (files w));
               locked := locked w |}, true)
  | None => (w, false)
  end.

Section Program.
Context `{Extern}.

(** ** [dotRename] *)
Definition dotPath (path : string) : string :=
  let dir := filepath_Dir path in
  let base := filepath_Base path in
  filepath_Join dir ("." +:+ base).

Definition dotRename (w : World) (path : string) : World * bool :=
  os_Rename w path (dotPath path).

(** ** [insertAppsInstalled]

    [setOk] is the answer of the memcached server to the [Set] of this call,
    read only when the call is made. The result is the error ([None] for
    nil) and what was logged. *)
Definition insertAppsInstalled (client : MemcClient) (a : AppsInstalled)
    (dry : bool) (setOk : bool) : option InsertError * list LogEntry :=
  let ua := {| ua_Lat := Lat a; ua_Lon := Lon a; ua_Apps := Apps a |} in
  let key := DevType a +:+ ":" +:+ DevID a in
  match Marshal ua with
  | None => (Some SerializationError, [])
  | Some packed =>
      if dry then
        (None, [LogDryRun (addr client) key (Lat a) (Lon a) (Apps a)])
      else if setOk then (None, [])
      else (Some (BackendWriteError (addr client)), [])
  end.

(** ** [processFile] as goroutines *)

(** Where the goroutine that called [processFile] stands. *)
Inductive MainPc :=
| MOpen          (* entry: log, os.Open, gzip.NewReader, go counter *)
| MScan          (* for scanner.Scan() *)
| MErrStore (loaded : Z) (unknown : option string)
                 (* inside errors++ (parse or routing failure): the value
                    read, not yet written back; [unknown] is the device
                    type to log after a routing failure *)
| MAcquire (client : MemcClient) (a : AppsInstalled)
                 (* wg.Add(1) done, at [semaphore <- struct{}{}] *)
| MSpawn (client : MemcClient) (a : AppsInstalled)
                 (* slot taken, at [go func(...)] *)
| MWait          (* wg.Wait() *)
| MClose         (* close(resultChan) *)
| MSleep         (* time.Sleep(100 * time.Millisecond): it waits for no
                    goroutine, so its step is always enabled *)
| MScanErr       (* scanner.Err() *)
| MCheck         (* if processed == 0 *)
| MRate          (* errRate := ...; the two evaluation logs *)
| MRename        (* dotRename(filename), its error dropped *)
| MReturn.

(** The counting goroutine [for ok := range resultChan]. *)
Inductive CounterPc :=
| CNone                           (* not started *)
| CRecv                           (* at the receive *)
| CLoad (ok : bool)               (* received, before processed++/errors++ *)
| CStore (ok : bool) (loaded : Z) (* counter read, not yet written back *)
| CExit.                          (* the channel is closed and drained *)

(** A write task [go func(client, apps)]. *)
Inductive TaskPc :=
| TInsert (client : MemcClient) (a : AppsInstalled)
                                  (* err := insertAppsInstalled(...) *)
| TSend (err : option InsertError) (* resultChan <- (err == nil) *)
| TLog (err : InsertError)        (* the log of a failed insert *)
| TRelease                        (* deferred: <-semaphore *)
| TDone                           (* deferred: wg.Done() *)
| TExit.

(** [released] counts the receives from [semaphore] this task has made. *)
Record Task := { tpc : TaskPc; released : nat }.

Record State := {
  world : World;
  logs : list LogEntry;
  scanner : list string;      (* the lines not scanned yet *)
  scanErr : bool;             (* what scanner.Err() will report *)
  pc : MainPc;
  wg : nat;                   (* the WaitGroup counter *)
  semaphore : nat;            (* elements in the semaphore channel *)
  resultChan : list bool;     (* the buffer of resultChan, oldest first *)
  closed : bool;
  counter : CounterPc;
  processed : Z;
  errors : Z;
  tasks : list Task
}.

(** The arguments of [processFile]; [semCap] is [cap(semaphore)]. *)
Record Args := {
  filename : string;
  deviceMemc : gmap string MemcClient;
  dry : bool;
  semCap : nat
}.

Definition resultCap : nat := 1000.

Definition setMain (s : State) (p : MainPc) (lg : list LogEntry) : State :=
  {| world := world s; logs := logs s ++ lg; scanner := scanner s;
     scanErr := scanErr s; pc := p; wg := wg s; semaphore := semaphore s;
     resultChan := resultChan s; closed := closed s; counter := counter s;
     processed := processed s; errors := errors s; tasks := tasks s |}.

Definition setScanner (s : State) (l : list string) : State :=
  {| world := world s; logs := logs s; scanner := l;
     scanErr := scanErr s; pc := pc s; wg := wg s; semaphore := semaphore s;
     resultChan := resultChan s; closed := closed s; counter := counter s;
     processed := processed s; errors := errors s; tasks := tasks s |}.

Definition setSync (s : State) (w sem : nat) (ch : list bool) (cl : bool)
    : State :=
  {| world := world s; logs := logs s; scanner := scanner s;
     scanErr := scanErr s; pc := pc s; wg := w; semaphore := sem;
     resultChan := ch; closed := cl; counter := counter s;
     processed := processed s; errors := errors s; tasks := tasks s |}.

Definition setCounter (s : State) (c : CounterPc) (p e : Z) : State :=
  {| world := world s; logs := logs s; scanner := scanner s;
     scanErr := scanErr s; pc := pc s; wg := wg s; semaphore := semaphore s;
     resultChan := resultChan s; closed := closed s; counter := c;
     processed := p; errors := e; tasks := tasks s |}.

Definition setTasks (s : State) (ts : list Task) (lg : list LogEntry)
    : State :=
  {| world := world s; logs := logs s ++ lg; scanner := scanner s;
     scanErr := scanErr s; pc := pc s; wg := wg s; semaphore := semaphore s;
     resultChan := resultChan s; closed := closed s; counter := counter s;
     processed := processed s; errors := errors s; tasks := ts |}.

Definition setWorld (s : State) (w : World) : State :=
  {| world := w; logs := logs s; scanner := scanner s;
     scanErr := scanErr s; pc := pc s; wg := wg s; semaphore := semaphore s;
     resultChan := resultChan s; closed := closed s; counter := counter s;
     processed := processed s; errors := errors s; tasks := tasks s |}.

(** The state on entry to [processFile]: the semaphore is shared with the
    earlier calls and holds [sem] elements. *)
Definition enter (w : World) (lg : list LogEntry) (sem : nat) : State :=
  {| world := w; logs := lg; scanner := []; scanErr := false; pc := MOpen;
     wg := 0; semaphore := sem; resultChan := []; closed := false;
     counter := CNone; processed := 0; errors := 0; tasks := [] |}.

(** [errRate := float64(errors) / float64(processed)]. *)
Definition errRate (errs procd : Z) : float :=
  PrimFloat.div (float64_of_int errs) (float64_of_int procd).

(** The evaluation of lines 228-233: the entry that is logged. *)
Definition evaluate (errs procd : Z) : LogEntry :=
  if PrimFloat.ltb (errRate errs procd) normalErrRate
  then LogAcceptable (errRate errs procd)
  else LogHighErrors (errRate errs procd) normalErrRate.

(** One step of the goroutine of [processFile]; [None] when it is blocked
    or has returned. *)
Definition main_step (a : Args) (s : State) : option State :=
  match pc s with
  | MOpen =>
      let s := setMain s MOpen [LogProcessing (filename a)] in
      match os_Open (world s) (filename a) with
      | None => Some (setMain s MReturn [LogOpenError (filename a)])
      | Some f =>
          match body f with
          | NotGzip => Some (setMain s MReturn [LogGzipError (filename a)])
          | Gzip lines rerr =>
              Some {| world := world s; logs := logs s; scanner := lines;
                      scanErr := rerr; pc := MScan; wg := wg s;
                      semaphore := semaphore s; resultChan := [];
                      closed := false; counter := CRecv;
                      processed := 0; errors := 0; tasks := tasks s |}
          end
      end
  | MScan =>
      match scanner s with
      | [] => Some (setMain s MWait [])
      | text :: rest =>
          let s := setScanner s rest in
          let line := TrimSpace text in
          if decide (line = "") then Some s
          else match parseAppsInstalled line with
               | (inl _, lg) => Some (setMain s (MErrStore (errors s) None) lg)
               | (inr apps, lg) =>
                   match deviceMemc a !! DevType apps with
                   | None =>
                       Some (setMain s
                               (MErrStore (errors s) (Some (DevType apps)))
                               lg)
                   | Some client =>
                       Some (setMain
                               (setSync s (S (wg s)) (semaphore s)
                                  (resultChan s) (closed s))
                               (MAcquire client apps) lg)
                   end
               end
      end
  | MErrStore v unknown =>
      Some (setMain (setCounter s (counter s) (processed s) (wrap64 (v + 1)))
              MScan
              (match unknown with
               | Some devType => [LogUnknownDevice devType]
               | None => []
               end))
  | MAcquire client apps =>
      if decide (semaphore s < semCap a)%nat
      then Some (setMain
                   (setSync s (wg s) (S (semaphore s)) (resultChan s)
                      (closed s))
                   (MSpawn client apps) [])
      else None
  | MSpawn client apps =>
      Some (setMain
              (setTasks s
                 (tasks s ++ [{| tpc := TInsert client apps; released := 0 |}])
                 [])
              MScan [])
  | MWait => if decide (wg s = 0%nat) then Some (setMain s MClose []) else None
  | MClose =>
      Some (setMain (setSync s (wg s) (semaphore s) (resultChan s) true)
              MSleep [])
  | MSleep => Some (setMain s MScanErr [])
  | MScanErr =>
      Some (setMain s MCheck
              (if scanErr s then [LogReadError (filename a)] else []))
  | MCheck =>
      if decide (processed s = 0) then Some (setMain s MRename [])
      else Some (setMain s MRate [])
  | MRate => Some (setMain s MRename [evaluate (errors s) (processed s)])
  | MRename =>
      Some (setMain (setWorld s (fst (dotRename (world s) (filename a))))
              MReturn [])
  | MReturn => None
  end.

(** One step of the counting goroutine. *)
Definition counter_step (s : State) : option State :=
  match counter s with
  | CNone | CExit => None
  | CRecv =>
      match resultChan s with
      | ok :: rest =>
          Some (setCounter
                  (setSync s (wg s) (semaphore s) rest (closed s))
                  (CLoad ok) (processed s) (errors s))
      | [] =>
          if closed s
          then Some (setCounter s CExit (processed s) (errors s))
          else None
      end
  | CLoad ok =>
      Some (setCounter s
              (CStore ok (if ok then processed s else errors s))
              (processed s) (errors s))
  | CStore ok v =>
      if ok then Some (setCounter s CRecv (wrap64 (v + 1)) (errors s))
      else Some (setCounter s CRecv (processed s) (wrap64 (v + 1)))
  end.

(** One step of the write task number [i]. *)
Definition task_step (a : Args) (i : nat) (setOk : bool) (s : State)
    : option State :=
  match tasks s !! i with
  | None => None
  | Some t =>
      let upd p r lg :=
        setTasks s (<[i := {| tpc := p; released := r |}]> (tasks s)) lg in
      match tpc t with
      | TInsert client apps =>
          let '(err, lg) := insertAppsInstalled client apps (dry a) setOk in
          Some (upd (TSend err) (released t) lg)
      | TSend err =>
          if decide (length (resultChan s) < resultCap)%nat
          then
            let s' := upd (match err with
                           | Some e => TLog e
                           | None => TRelease
                           end) (released t) [] in
            Some (setSync s' (wg s') (semaphore s')
                    (resultChan s' ++ [bool_decide (err = None)])
                    (closed s'))
          else None
      | TLog e => Some (upd TRelease (released t) [LogInsertError e])
      | TRelease =>
          match semaphore s with
          | S n =>
              let s' := upd TDone (S (released t)) [] in
              Some (setSync s' (wg s') n (resultChan s') (closed s'))
          | O => None
          end
      | TDone =>
          match wg s with
          | S n =>
              let s' := upd TExit (released t) [] in
              Some (setSync s' n (semaphore s') (resultChan s') (closed s'))
          | O => None
          end
      | TExit => None
      end
  end.

(** What the scheduler may do next: run one goroutine for one step. *)
Inductive Action :=
| AMain
| ACounter
| ATask (i : nat) (setOk : bool).

Definition step (a : Args) (act : Action) (s : State) : option State :=
  match act with
  | AMain => main_step a s
  | ACounter => counter_step s
  | ATask i setOk => task_step a i setOk s
  end.

Fixpoint run (a : Args) (sched : list Action) (s : State) : option State :=
  match sched with
  | [] => Some s
  | act :: rest =>
      match step a act s with
      | Some s' => run a rest s'
      | None => None
      end
  end.

End Program.

(** ** [main]: stat, sort, process one file after the other *)

Record fileInfo := { path : string; fiModTime : Z }.

(** [time.Time.After]. *)
Definition After (t u : Z) : bool := u <? t.

(** [fileInfos[i], fileInfos[j] = fileInfos[j], fileInfos[i]]. *)
Definition swap (l : list fileInfo) (i j : nat) : list fileInfo :=
  match l !! i, l !! j with
  | Some x, Some y => <[i := y]> (<[j := x]> l)
  | _, _ => l
  end.

(** The body of the inner loop, for one [j]. *)
Definition sortBody (i : nat) (l : list fileInfo) (j : nat) : list fileInfo :=
  match l !! i, l !! j with
  | Some x, Some y => if After (fiModTime x) (fiModTime y) then swap l i j else l
  | _, _ => l
  end.

(** [for j := i + 1; j < len(fileInfos); j++]. *)
Definition sortInner (l : list fileInfo) (i : nat) : list fileInfo :=
  foldl (sortBody i) l (seq (S i) (length l - S i)).

(** [for i := 0; i < len(fileInfos); i++]. *)
Definition sortFileInfos (l : list fileInfo) : list fileInfo :=
  foldl sortInner l (seq 0 (length l)).

(** The loop over the globbed names: a file that [os.Stat] fails on is logged
    and left out. *)
Fixpoint statFiles (w : World) (globbed : list string)
    (infos : list fileInfo) (lg : list LogEntry)
    : list fileInfo * list LogEntry :=
  match globbed with
  | [] => (infos, lg)
  | file :: rest =>
      match os_Stat w file with
      | None => statFiles w rest infos (lg ++ [LogStatError file])
      | Some t =>
          statFiles w rest (infos ++ [{| path := file; fiModTime := t |}]) lg
      end
  end.

Record Config := {
  Pattern : string;
  Idfa : string;
  Gaid : string;
  Adid : string;
  Dvid : string;
  Dry : bool
}.

Section Main.
Context `{Extern}.

Definition clients (c : Config) : gmap string MemcClient :=
  <["idfa" := {| addr := Idfa c |}]>
    (<["gaid" := {| addr := Gaid c |}]>
       (<["adid" := {| addr := Adid c |}]>
          (<["dvid" := {| addr := Dvid c |}]> ∅))).

(** [semaphore := make(chan struct{}, 100)]. *)
Definition semaphoreCap : nat := 100.

Definition argsFor (c : Config) (file : string) : Args :=
  {| filename := file; deviceMemc := clients c; dry := Dry c;
     semCap := semaphoreCap |}.

(** A call of [processFile] under a schedule of its goroutines: the state
    in which the call returns ([None] if the schedule does not get there). *)
Definition processFile (a : Args) (sched : list Action) (w : World)
    (lg : list LogEntry) (sem : nat) : option State :=
  match run a sched (enter w lg sem) with
  | Some s => match pc s with MReturn => Some s | _ => None end
  | None => None
  end.

(** [for _, fileInfo := range fileInfos { processFile(...) }]: a call
    starts when the one before has returned. *)
Fixpoint processAll (c : Config) (infos : list fileInfo)
    (scheds : list (list Action)) (w : World) (lg : list LogEntry)
    (sem : nat) : option (World * list LogEntry) :=
  match infos with
  | [] => Some (w, lg)
  | fi :: rest =>
      match scheds with
      | [] => None
      | sched :: scheds' =>
          match processFile (argsFor c (path fi)) sched w lg sem with
          | Some s =>
              processAll c rest scheds' (world s) (logs s) (semaphore s)
          | None => None
          end
      end
  end.

(** The files in the order [main] hands them to [processFile]. *)
Definition processingOrder (w : World) (globbed : list string)
    : list fileInfo :=
  sortFileInfos (fst (statFiles w globbed [] [])).

(** [main] after its flags are parsed, on the names [filepath.Glob] found;
    one schedule per file. *)
Definition main (c : Config) (globbed : list string)
    (scheds : list (list Action)) (w : World)
    : option (World * list LogEntry) :=
  let lg := [LogStarted (Pattern c) (Dry c)] in
  let lg := lg ++ snd (statFiles w globbed [] []) in
  match processAll c (processingOrder w globbed) scheds w lg 0 with
  | Some (w', lg') => Some (w', lg' ++ [LogFinished])
  | None => None
  end.

End Main.


(** * The vocabulary of the properties *)

(** A token of the app list draws a diagnostic when, trimmed, it is not
    empty and [strconv.ParseUint] rejects it. *)
Definition diagnosed (tok : string) : Prop :=
  tok ≠ "" ∧ ParseUint32 tok = None.

#[global] Instance diagnosed_dec tok : Decision (diagnosed tok).
Proof. unfold diagnosed. apply _. Defined.

Definition diagnosedTokens (toks : list string) : list string :=
  filter diagnosed (TrimSpace <$> toks).

(** ** The admission gate *)

(** A write task is in flight from the moment it is started until it has
    given its slot back ([<-semaphore]); after that the goroutine only has
    [wg.Done()] left to call. *)
Definition holdsSlot (t : Task) : bool :=
  match tpc t with
  | TInsert _ _ | TSend _ | TLog _ | TRelease => true
  | TDone | TExit => false
  end.

Definition slots (t : Task) : nat := if holdsSlot t then 1 else 0.

Definition alive (t : Task) : nat :=
  match tpc t with TExit => 0 | _ => 1 end.

Definition inFlight (s : State) : nat := sum_list_with slots (tasks s).

(** A slot taken by the scanning goroutine for a task it has not started yet. *)
Definition slotPending (p : MainPc) : nat :=
  match p with MSpawn _ _ => 1 | _ => 0 end.

Definition wgPending (p : MainPc) : nat :=
  match p with MAcquire _ _ | MSpawn _ _ => 1 | _ => 0 end.

(** Outside the scanning loop no task is announced to the WaitGroup. *)
Definition quiet (p : MainPc) : bool :=
  match p with
  | MScan | MErrStore _ _ | MAcquire _ _ | MSpawn _ _ | MWait => false
  | _ => true
  end.

Record Inv (a : Args) (s : State) : Prop := {
  inv_sem : semaphore s = (inFlight s + slotPending (pc s))%nat;
  inv_cap : (semaphore s ≤ semCap a)%nat;
  inv_wg : wg s = (sum_list_with alive (tasks s) + wgPending (pc s))%nat;
  inv_quiet : quiet (pc s) = true → wg s = 0%nat;
  inv_released :
    Forall (λ t, released t = if holdsSlot t then 0%nat else 1%nat) (tasks s)
}.

(** ** The executions of [main]

    The state [main] is in after the schedules [scheds]: every schedule but
    the last runs one call of [processFile] until it returns, the last one
    runs the call that follows for as long as it goes. *)
Section MainRuns.
Context `{Extern}.

Fixpoint mainRun (c : Config) (infos : list fileInfo)
    (scheds : list (list Action)) (w : World) (lg : list LogEntry)
    (sem : nat) : option State :=
  match infos, scheds with
  | fi :: _, [sched] => run (argsFor c (path fi)) sched (enter w lg sem)
  | fi :: rest, sched :: scheds' =>
      match processFile (argsFor c (path fi)) sched w lg sem with
      | Some s => mainRun c rest scheds' (world s) (logs s) (semaphore s)
      | None => None
      end
  | _, _ => None
  end.

Definition mainReaches (c : Config) (globbed : list string)
    (scheds : list (list Action)) (w : World) : option State :=
  mainRun c (processingOrder w globbed) scheds w
    ([LogStarted (Pattern c) (Dry c)] ++ snd (statFiles w globbed [] [])) 0.

(** What the gate promises in a state: at most [capacity] tasks in flight,
    every element of the semaphore held by a task in flight or by the
    dispatch of the next one, and every task that has left the gate has given
    back its slot once. *)
Definition gateRespected (capacity : nat) (s : State) : Prop :=
  (inFlight s ≤ capacity)%nat
  ∧ semaphore s = (inFlight s + slotPending (pc s))%nat
  ∧ Forall (λ t, released t = if holdsSlot t then 0%nat else 1%nat) (tasks s).

End MainRuns.

(** ** The order of the files *)

Section SortingInvariants.
Local Open Scope nat_scope.

(** The first [i] places hold their final elements: each is at most every
    element after it. *)
Definition settled (l : list fileInfo) (i : nat) : Prop :=
  ∀ a b x y, a < b → a < i → l !! a = Some x → l !! b = Some y →
    (fiModTime x ≤ fiModTime y)%Z.

(** Ascending modification times. *)
Definition ascending (l : list fileInfo) : Prop :=
  ∀ a b x y, a < b → l !! a = Some x → l !! b = Some y →
    (fiModTime x ≤ fiModTime y)%Z.

(** What holds before the iteration [j] of the inner loop. *)
Definition innerInv (l0 : list fileInfo) (i j : nat) (l : list fileInfo)
    : Prop :=
  length l = length l0 ∧ l ≡ₚ l0 ∧ settled l i
  ∧ ∀ k x y, i < k < j → l !! i = Some x → l !! k = Some y →
      (fiModTime x ≤ fiModTime y)%Z.

End SortingInvariants.

(** The files whose processing has begun, in order, as the log shows them:
    [processFile] logs its file name on entry. *)
Definition started (lg : list LogEntry) : list string :=
  omap (λ e, match e with LogProcessing f => Some f | _ => None end) lg.

Section TraceInvariant.
Context `{Extern}.

(** The log of a call names its file once, from the first step on. *)
Definition traceInv (a : Args) (lg0 : list LogEntry) (s : State) : Prop :=
  started (logs s) =
    started lg0 ++ match pc s with MOpen => [] | _ => [filename a] end.

End TraceInvariant.

(** Case analysis on every [match] of the hypothesis [H], a step equation. *)
Ltac cases_of H :=
  repeat match type of H with
         | context [match ?x with _ => _ end] =>
             lazymatch x with
             | context [match _ with _ => _ end] => fail
             | _ => destruct x eqn:?
             end
         end.

(** ** Worked executions *)

Module Runs.

Definition config : Config :=
  {| Pattern := "*.tsv.gz"; Idfa := "127.0.0.1:33013";
     Gaid := "127.0.0.1:33014"; Adid := "127.0.0.1:33015";
     Dvid := "127.0.0.1:33016"; Dry := false |}.

Definition args : Args := argsFor config "a.gz".

Definition goodLine : string := tabbed ["idfa"; "ID1"; "55.55"; "42.42"; "1"].

Definition gz (lines : list string) : File :=
  {| modTime := 1; readable := true; body := Gzip lines false |}.

(** One file of one valid line. *)
Definition oneLine : World := {| files := {["a.gz" := gz [goodLine]]}; locked := ∅ |}.

(** The scanning goroutine opens the file, dispatches the task of the line;
    the task inserts, sends [true], releases its slot and is done; the
    scanning goroutine then runs to its return. The counting goroutine is
    never scheduled. *)
Definition sleepTooShort : list Action :=
  [AMain; AMain; AMain; AMain;
   ATask 0 true; ATask 0 true; ATask 0 true; ATask 0 true;
   AMain; AMain; AMain; AMain; AMain; AMain; AMain].

(** One file of two lines: a valid one, whose write the server refuses, and
    one that does not parse. *)
Definition twoLines : World :=
  {| files := {["a.gz" := gz [goodLine; "garbage"]]}; locked := ∅ |}.

(** Up to the point where both goroutines are inside [errors++]: the task of
    line one fails and sends [false], the counting goroutine receives it and
    reads [errors]; the scanning goroutine fails to parse line two and reads
    [errors] as well. *)
Definition bothInsideIncrement : list Action :=
  [AMain; AMain; AMain; AMain;
   ATask 0 false; ATask 0 false;
   ACounter; ACounter;
   AMain].

(** Both write back, the task ends, the channel is closed and the counting
    goroutine leaves its loop before the scanning goroutine goes on. *)
Definition lostUpdate : list Action :=
  bothInsideIncrement ++
  [AMain; ACounter;
   ATask 0 false; ATask 0 false; ATask 0 false;
   AMain; AMain; AMain; ACounter;
   AMain; AMain; AMain; AMain].

(** An empty file that the system refuses to rename. *)
Definition lockedFile : World :=
  {| files := {["a.gz" := gz []]}; locked := {["a.gz"]} |}.

Definition unlockedFile : World :=
  {| files := {["a.gz" := gz []]}; locked := ∅ |}.

Definition emptyFileRun : list Action :=
  [AMain; AMain; AMain; AMain; AMain; AMain; AMain; AMain].

(** A file of a blank line followed by a valid one, after the open. *)
Definition blankThenGood : World :=
  {| files := {["a.gz" := gz ["   "; goodLine]]}; locked := ∅ |}.

Definition stateAfter (w : World) (sched : list Action) : State :=
  default (enter w [] 0) (@run extern args sched (enter w [] 0)).

(** The one-line file again, the counting goroutine scheduled before the
    counts are read. *)
Definition counted : list Action :=
  [AMain; AMain; AMain; AMain;
   ATask 0 true; ATask 0 true; ATask 0 true; ATask 0 true;
   ACounter; ACounter; ACounter;
   AMain; AMain; AMain; AMain; AMain].

(** A file none of whose lines parses: every line is counted as an error by
    the scanning goroutine, the counting goroutine leaves its loop after the
    close, and the scanning goroutine arrives at [if processed == 0]. *)
Definition allFail : World :=
  {| files := {["a.gz" := gz ["garbage"; "rubbish"]]}; locked := ∅ |}.

Definition allFailRun : list Action :=
  [AMain; AMain; AMain; AMain; AMain; AMain; AMain; AMain; ACounter;
   AMain; AMain].

(** States at [if processed == 0] (with the count 0 and two errors, and with
    the count 1), at the rename of a locked file, and at the scan of a blank
    line. *)
Definition checkZero : State := stateAfter allFail allFailRun.
Definition atRename : State := stateAfter lockedFile (take 7 emptyFileRun).
Definition atBlank : State := stateAfter blankThenGood [AMain].

(** [main] on the one-line file, stopped when its task is in flight. *)
Definition taskStarted : list Action :=
  [AMain; AMain; AMain; AMain; ATask 0 true].
Definition inFlightState : State :=
  default (enter oneLine [] 0)
    (@mainReaches extern config ["a.gz"] [taskStarted] oneLine).

(** Three empty files found in the order t1, t2, t3, with modification times
    T3 < T1 < T2. *)
Definition empty (t : Z) : File :=
  {| modTime := t; readable := true; body := Gzip [] false |}.

Definition threeFiles : World :=
  {| files := {["t1.gz" := empty 20; "t2.gz" := empty 30; "t3.gz" := empty 10]};
     locked := ∅ |}.

(** Two files of the same modification time, found before an older one. *)
Definition tiedFiles : World :=
  {| files := {["a.gz" := empty 2; "b.gz" := empty 2; "c.gz" := empty 1]};
     locked := ∅ |}.

End Runs.

(** ** Vocabulary of the further properties *)

Definition running (c : CounterPc) : bool :=
  match c with CRecv | CLoad _ | CStore _ _ => true | _ => false end.

Definition scanning (p : MainPc) : bool :=
  match p with
  | MScan | MErrStore _ _ | MAcquire _ _ | MSpawn _ _ | MWait | MClose => true
  | _ => false
  end.

(** While the scanning goroutine is between the open and the close of the
    channel, the channel is open and the counting goroutine is in its loop. *)
Definition counterInv (s : State) : Prop :=
  scanning (pc s) = true → closed s = false ∧ running (counter s) = true.

Definition earlier (x y : fileInfo) : Prop := (fiModTime x < fiModTime y)%Z.


(** *** The sequential execution of a call

    What becomes of a line in the scanning loop. *)
Inductive Fate :=
| Blank
| Failed (lg : list LogEntry) (unknown : option string)
| Dispatched (client : MemcClient) (apps : AppsInstalled) (lg : list LogEntry).

Section SequentialDefs.
Context `{Extern}.

(** What the scanning loop does with a line. *)
Definition fate (a : Args) (text : string) : Fate :=
  let line := TrimSpace text in
  if decide (line = "") then Blank
  else match parseAppsInstalled line with
       | (inl _, lg) => Failed lg None
       | (inr apps, lg) =>
           match deviceMemc a !! DevType apps with
           | None => Failed lg (Some (DevType apps))
           | Some client => Dispatched client apps lg
           end
       end.

(** Whether the line is counted as processed ([Some true]), as an error
    ([Some false]) or not at all; [setOk] is the server's answer. *)
Definition lineOutcome (a : Args) (setOk : bool) (text : string) : option bool :=
  match fate a text with
  | Blank => None
  | Failed _ _ => Some false
  | Dispatched client apps _ =>
      Some (bool_decide (fst (insertAppsInstalled client apps (dry a) setOk) = None))
  end.

Definition dispatches (a : Args) (text : string) : nat :=
  match fate a text with Dispatched _ _ _ => 1 | _ => 0 end.

(** The task of the line runs to its end and its outcome is counted before
    the next line is scanned. *)
Definition taskRun (k : nat) (setOk : bool) (err : option InsertError)
    : list Action :=
  [AMain; AMain; AMain; ATask k setOk; ATask k setOk]
  ++ match err with Some _ => [ATask k setOk] | None => [] end
  ++ [ATask k setOk; ATask k setOk; ACounter; ACounter; ACounter].

Definition lineRun (a : Args) (setOk : bool) (k : nat) (text : string)
    : list Action :=
  match fate a text with
  | Blank => [AMain]
  | Failed _ _ => [AMain; AMain]
  | Dispatched client apps _ =>
      taskRun k setOk (fst (insertAppsInstalled client apps (dry a) setOk))
  end.

(** [net k] is the server's answer to the task number [k]. *)
Fixpoint fileRun (a : Args) (net : nat → bool) (k : nat) (lines : list string)
    : list Action :=
  match lines with
  | [] => []
  | text :: rest =>
      lineRun a (net k) k text ++ fileRun a net (k + dispatches a text) rest
  end.

(** The lines counted as processed and as errors. *)
Fixpoint tally (a : Args) (net : nat → bool) (k : nat) (lines : list string)
    : Z * Z :=
  match lines with
  | [] => (0, 0)
  | text :: rest =>
      let '(p, e) := tally a net (k + dispatches a text) rest in
      match lineOutcome a (net k) text with
      | None => (p, e)
      | Some true => (p + 1, e)
      | Some false => (p, e + 1)
      end
  end.

(** After the last line: wait, close, let the counting goroutine leave its
    loop, evaluate and rename. *)
Definition closeRun (procd : Z) : list Action :=
  [AMain; AMain; AMain; ACounter; AMain; AMain; AMain]
  ++ (if decide (procd = 0) then [] else [AMain]) ++ [AMain].

Definition sequentialRun (a : Args) (net : nat → bool) (lines : list string)
    : list Action :=
  AMain :: fileRun a net 0 lines ++ closeRun (fst (tally a net 0 lines)).

End SequentialDefs.

(** The state between two lines. *)
Definition betweenLines (s : State) : Prop :=
  pc s = MScan ∧ resultChan s = [] ∧ counter s = CRecv
  ∧ wg s = 0%nat ∧ semaphore s = 0%nat.


(** Keeping a state in the form of a record while stepping through a
    schedule. *)
Ltac norm :=
  unfold setMain, setSync, setTasks, setScanner, setCounter, setWorld; simpl.

Ltac fields :=
  cbn [world logs scanner scanErr pc wg semaphore resultChan closed counter
       processed errors tasks] in *.


(** *** A bound on the length of an execution *)

(** The lines of the file a call is about to open. *)
Definition linesOf (w : World) (file : string) : list string :=
  match os_Open w file with
  | Some f => match body f with Gzip lines _ => lines | NotGzip => [] end
  | None => []
  end.

(** The steps the scanning goroutine has left, counting for each line still
    to scan the steps of the task it may start. *)
Definition mainPot (a : Args) (s : State) : nat :=
  match pc s with
  | MOpen => 12 * length (linesOf (world s) (filename a)) + 10
  | MScan => 12 * length (scanner s) + 8
  | MErrStore _ _ => 12 * length (scanner s) + 9
  | MAcquire _ _ => 12 * length (scanner s) + 19
  | MSpawn _ _ => 12 * length (scanner s) + 18
  | MWait => 7
  | MClose => 6
  | MSleep => 5
  | MScanErr => 4
  | MCheck => 3
  | MRate => 2
  | MRename => 1
  | MReturn => 0
  end.

(** The steps a task has left, with those the counting goroutine will spend
    on its outcome. *)
Definition taskPot (t : Task) : nat :=
  match tpc t with
  | TInsert _ _ => 8
  | TSend _ => 7
  | TLog _ => 3
  | TRelease => 2
  | TDone => 1
  | TExit => 0
  end.

Definition counterPot (c : CounterPc) : nat :=
  match c with
  | CNone | CExit => 0
  | CRecv => 1
  | CLoad _ => 3
  | CStore _ _ => 2
  end.

Definition potential (a : Args) (s : State) : nat :=
  mainPot a s + sum_list_with taskPot (tasks s) + counterPot (counter s)
  + 3 * length (resultChan s).

(** *** Counting the outcomes *)

(** The failed inserts a log reports. *)
Definition insertErrors (lg : list LogEntry) : nat :=
  sum_list_with (λ e, match e with LogInsertError _ => 1 | _ => 0 end)%nat lg.

(** The successes waiting in the result channel, and the one the counting
    goroutine has received and not yet added to [processed]. *)
Definition trues (ch : list bool) : nat :=
  sum_list_with (λ ok : bool, if ok then 1 else 0)%nat ch.

Definition pendingTrue (c : CounterPc) : nat :=
  match c with CLoad true | CStore true _ => 1 | _ => 0 end%nat.

(** A task that has sent its outcome; a task that has sent a failure and not
    logged it yet. *)
Definition pastSend (t : Task) : nat :=
  match tpc t with TInsert _ _ | TSend _ => 0 | _ => 1 end%nat.

Definition atLog (t : Task) : nat :=
  match tpc t with TLog _ => 1 | _ => 0 end%nat.

(** [processed] accounts for every success sent, but for those still in the
    channel or in the hands of the counting goroutine; only the counting
    goroutine writes it. *)
Record CountInv (a : Args) (w0 : World) (lg0 : list LogEntry) (sem0 : nat)
    (s : State) : Prop := {
  ci_open : pc s = MOpen → s = enter w0 lg0 sem0;
  ci_count : pc s ≠ MOpen →
    ∃ k : nat, processed s = Z.of_nat k
      ∧ (k + trues (resultChan s) + pendingTrue (counter s)
         + sum_list_with atLog (tasks s) + insertErrors (logs s)
         = sum_list_with pastSend (tasks s) + insertErrors lg0)%nat
      ∧ (insertErrors lg0 ≤ insertErrors (logs s))%nat;
  ci_store : ∀ v, counter s = CStore true v → v = processed s;
  ci_bound : pc s ≠ MOpen →
    (length (tasks s) + length (scanner s) + wgPending (pc s)
     ≤ length (linesOf w0 (filename a)))%nat;
  ci_closed : closed s = true → quiet (pc s) = true;
  ci_exit : counter s = CExit → resultChan s = [] ∧ closed s = true
}.

(** *** Trimmed strings *)

(** No white-space rune at the front: what [trimLeft] stops at. *)
Definition leftClean (s : list ascii) : Prop :=
  match s with
  | [] => True
  | c1 :: r1 =>
      asciiSpace c1 = false
      ∧ match r1 with
        | [] => True
        | c2 :: r2 =>
            space2 c1 c2 = false
            ∧ match r2 with
              | [] => True
              | c3 :: _ => space3 c1 c2 c3 = false
              end
        end
  end.

(** No white-space rune at the end, on the reversed bytes. *)
Definition rightCleanRev (s : list ascii) : Prop :=
  match s with
  | [] => True
  | c1 :: r1 =>
      asciiSpace c1 = false
      ∧ match r1 with
        | [] => True
        | c2 :: r2 =>
            space2 c2 c1 = false
            ∧ match r2 with
              | [] => True
              | c3 :: _ => space3 c3 c2 c1 = false
              end
        end
  end.

(** *** Counting the failures *)

(** The lines that are not blank: those the scanning loop counts. *)
Definition nonBlank (lines : list string) : nat :=
  length (filter (λ text, TrimSpace text ≠ "") lines).

(** The failures waiting in the result channel, the one the counting
    goroutine has received and not yet added to [errors], and the one the
    scanning goroutine is adding. *)
Definition falses (ch : list bool) : nat :=
  sum_list_with (λ ok : bool, if ok then 0 else 1)%nat ch.

Definition pendingFalse (c : CounterPc) : nat :=
  match c with CLoad false | CStore false _ => 1 | _ => 0 end%nat.

Definition pendingErr (p : MainPc) : nat :=
  match p with MErrStore _ _ => 1 | _ => 0 end%nat.

(** The failures whose [errors++] is complete, were none of them lost: the
    lines scanned ([pre]) that are not blank, less those that became a task
    or are becoming one, plus the tasks that failed, less the failures still
    on their way to [errors]. *)
Definition failuresCounted (lg0 : list LogEntry) (pre : list string)
    (s : State) : Z :=
  Z.of_nat (nonBlank pre)
  - Z.of_nat (length (tasks s)) - Z.of_nat (wgPending (pc s))
  + Z.of_nat (sum_list_with atLog (tasks s))
  + Z.of_nat (insertErrors (logs s)) - Z.of_nat (insertErrors lg0)
  - Z.of_nat (pendingErr (pc s))
  - Z.of_nat (falses (resultChan s)) - Z.of_nat (pendingFalse (counter s)).

(** [errors], and every value of it a goroutine has read and is about to
    write back incremented, is at most the number of completed failures. *)
Definition ErrInv (a : Args) (w0 : World) (lg0 : list LogEntry) (s : State)
    : Prop :=
  pc s ≠ MOpen →
  ∃ pre, linesOf w0 (filename a) = pre ++ scanner s
    ∧ 0 ≤ errors s ≤ failuresCounted lg0 pre s
    ∧ (∀ v u, pc s = MErrStore v u → 0 ≤ v ≤ failuresCounted lg0 pre s)
    ∧ (∀ v, counter s = CStore false v → 0 ≤ v ≤ failuresCounted lg0 pre s).

(** The three parts of [ErrInv] once the state is in view: the lines, the
    bound on [errors], and the bounds on the values read. *)
Ltac counted Hcnt :=
  split; [first [done | congruence]|]; split; [lia|];
  split; [first [done | intros ? ? [= <- <-]; lia]|];
  let v := fresh "v" in let Hv := fresh "Hv" in
  intros v Hv; first [done | specialize (Hcnt v Hv); lia].

(** ** Further worked inputs *)

Module Cases.

(** A line whose app list has a token that is no number. *)
Definition mixedLine : string :=
  tabbed ["idfa"; "ID1"; "55.55"; "42.42"; "1,x,3"].

(** A line whose latitude is no number, and a line of a device type that no
    client serves. *)
Definition badLatitude : string :=
  tabbed ["idfa"; "ID1"; "north"; "42.42"; "1"].
Definition unknownDevice : string :=
  tabbed ["tizen"; "ID1"; "55.55"; "42.42"; "1"].

(** A file the system refuses to open, and one that is no gzip stream. *)
Definition unreadable : World :=
  {| files := {["a.gz" := {| modTime := 1; readable := false;
                             body := Gzip [] false |}]};
     locked := ∅ |}.

Definition plainText : World :=
  {| files := {["a.gz" := {| modTime := 1; readable := true;
                             body := NotGzip |}]};
     locked := ∅ |}.

(** A file whose first line names an unknown device type, after the open. *)
Definition unknownFirst : World :=
  {| files := {["a.gz" := Runs.gz [unknownDevice; Runs.goodLine]]};
     locked := ∅ |}.
Definition atUnknown : State := Runs.stateAfter unknownFirst [AMain].

(** File infos in ascending order, two of them of the same time; and three of
    distinct times, found last-first. *)
Definition sortedInfos : list fileInfo :=
  [{| path := "a.gz"; fiModTime := 1 |};
   {| path := "b.gz"; fiModTime := 2 |};
   {| path := "c.gz"; fiModTime := 2 |}].

Definition distinctInfos : list fileInfo :=
  [{| path := "a.gz"; fiModTime := 1 |};
   {| path := "b.gz"; fiModTime := 2 |}].
Definition lastInfo : fileInfo := {| path := "c.gz"; fiModTime := 3 |}.

(** The server accepts every write. *)
Definition accepting : nat → bool := λ _, true.

End Cases.

(** * Properties of the parser *)

Section ParserFacts.
Context `{Extern}.

Lemma parseApps_spec line toks apps lg :
  parseApps line toks apps lg =
    (apps ++ omap ParseUint32 (TrimSpace <$> toks),
     lg ++ ((λ _, LogNotAllDigits line) <$> diagnosedTokens toks)).
Proof.
  unfold diagnosedTokens.
  revert apps lg. induction toks as [|tok toks IH]; intros apps lg; simpl.
  - by rewrite !app_nil_r.
  - destruct (decide (TrimSpace tok = "")) as [He|Hne].
    + rewrite IH, He. simpl. rewrite filter_cons_False; [done|].
      unfold diagnosed. tauto.
    + destruct (ParseUint32 (TrimSpace tok)) as [app|] eqn:Hp.
      * rewrite IH. rewrite filter_cons_False.
        -- by rewrite <- app_assoc.
        -- unfold diagnosed. rewrite Hp. intros [_ ?]; discriminate.
      * rewrite IH. rewrite filter_cons_True by done.
        by rewrite fmap_cons, <- app_assoc.
Qed.

(** A line of fewer than five fields is malformed. *)
Lemma parse_short line :
  (length (Split (TrimSpace line) (byte 9)) < 5)%nat →
  parseAppsInstalled line = (inl MalformedLine, []).
Proof.
  unfold parseAppsInstalled. intros Hlen.
  destruct (Split (TrimSpace line) (byte 9)) as [|? [|? [|? [|? [|? ?]]]]];
    simpl in Hlen; try done; lia.
Qed.

(** With five fields or more, an empty first or second field of the trimmed
    line gives [MissingIdentity]. *)
Lemma parse_missing_identity line devType devID latStr lonStr rawApps more :
  Split (TrimSpace line) (byte 9)
    = devType :: devID :: latStr :: lonStr :: rawApps :: more →
  devType = "" ∨ devID = "" →
  parseAppsInstalled line = (inl MissingIdentity, []).
Proof.
  unfold parseAppsInstalled. intros -> Hid. by rewrite decide_True.
Qed.

End ParserFacts.

(** The first field of a trimmed line is empty only when the whole line is:
    [strings.TrimSpace] removes a leading tab, which is white space. *)
Lemma trimLeft_head_bounded n s c r :
  (length s ≤ n)%nat → trimLeft s = c :: r → asciiSpace c = false.
Proof.
  revert s. induction n as [|n IH]; intros s Hn.
  { destruct s; [done|simpl in Hn; lia]. }
  destruct s as [|c1 r1]; [done|]. simpl in *.
  destruct (asciiSpace c1) eqn:E1; [apply IH; lia|].
  destruct r1 as [|c2 r2]; [by intros [= <- _]|]. simpl in Hn.
  destruct (space2 c1 c2); [apply IH; lia|].
  destruct r2 as [|c3 r3]; [by intros [= <- _]|]. simpl in Hn.
  destruct (space3 c1 c2 c3); [apply IH; lia|].
  by intros [= <- _].
Qed.

Lemma trimLeft_head s c r : trimLeft s = c :: r → asciiSpace c = false.
Proof. by apply (trimLeft_head_bounded (length s)). Qed.

Lemma trimRightRev_suffix_bounded n s :
  (length s ≤ n)%nat → ∃ k, s = k ++ trimRightRev s.
Proof.
  revert s. induction n as [|n IH]; intros s Hn.
  { destruct s; [by exists []|simpl in Hn; lia]. }
  destruct s as [|c1 r1]; [by exists []|]. simpl in *.
  destruct (asciiSpace c1).
  { destruct (IH r1) as [k Hk]; [lia|]. exists (c1 :: k).
    simpl. by rewrite <- Hk. }
  destruct r1 as [|c2 r2]; [by exists []|]. simpl in Hn.
  destruct (space2 c2 c1).
  { destruct (IH r2) as [k Hk]; [lia|]. exists (c1 :: c2 :: k).
    simpl. by rewrite <- Hk. }
  destruct r2 as [|c3 r3]; [by exists []|]. simpl in Hn.
  destruct (space3 c3 c2 c1).
  { destruct (IH r3) as [k Hk]; [lia|]. exists (c1 :: c2 :: c3 :: k).
    simpl. by rewrite <- Hk. }
  by exists [].
Qed.

Lemma trimRightRev_suffix s : ∃ k, s = k ++ trimRightRev s.
Proof. by apply (trimRightRev_suffix_bounded (length s)). Qed.

Lemma TrimSpace_head s c r : TrimSpace s = String c r → asciiSpace c = false.
Proof.
  unfold TrimSpace. intros Hs.
  destruct (trimRightRev_suffix (rev (trimLeft (list_ascii_of_string s))))
    as [k Hk].
  apply (f_equal (@rev _)) in Hk. rewrite rev_involutive, rev_app_distr in Hk.
  destruct (rev (trimRightRev (rev (trimLeft (list_ascii_of_string s)))))
    as [|c' r'] eqn:E; simpl in Hs; [done|].
  injection Hs as -> _. simpl in Hk.
  by apply trimLeft_head in Hk.
Qed.

Lemma Split_head_empty s sep rest :
  Split s sep = "" :: rest → s = "" ∨ ∃ r, s = String sep r.
Proof.
  destruct s as [|c r]; [by left|]. simpl.
  destruct (decide (c = sep)) as [->|Hne]; [right; eauto|].
  destruct (Split r sep); discriminate.
Qed.

(** So the test [devType == ""] of [parseAppsInstalled] never holds where it
    is made: with five fields or more the first one is not empty. *)
Lemma devType_never_empty line devID rest :
  Split (TrimSpace line) (byte 9) = "" :: devID :: rest → False.
Proof.
  intros Hs. destruct (Split_head_empty _ _ _ Hs) as [He|[r Hr]].
  - rewrite He in Hs. discriminate.
  - apply TrimSpace_head in Hr. discriminate.
Qed.

(** C6: a line whose device type or device id is empty should fail with
    [MissingIdentity]. On the line [\t\t55.55\t42.42\t1] the parser does not:
    trimming the line removes the two leading tabs, three fields are left,
    and the error is [MalformedLine]. *)
Theorem C6_empty_identity_line_is_malformed `{Extern} :
  parseAppsInstalled (tabbed [""; ""; "55.55"; "42.42"; "1"])
    = (inl MalformedLine, [])
  ∧ Split (TrimSpace (tabbed [""; ""; "55.55"; "42.42"; "1"])) (byte 9)
    = ["55.55"; "42.42"; "1"].
Proof. split; reflexivity. Qed.

(** With one more field the line of an empty device type is accepted, its
    fields shifted by one: the device id is read as the device type. *)
Lemma empty_devType_line_accepted :
  ∃ r, @parseAppsInstalled extern
         (tabbed [""; "ID1"; "55.55"; "42.42"; "1"; "2"]) = (inr r, [])
       ∧ DevType r = "ID1" ∧ DevID r = "55.55" ∧ Apps r = [2].
Proof. eexists. split; [vm_compute; reflexivity|]. by vm_compute. Qed.

(** An empty device id, the device type present, is reported as the claim
    says. *)
Lemma empty_devID_line_rejected `{Extern} :
  parseAppsInstalled (tabbed ["idfa"; ""; "55.55"; "42.42"; "1"])
    = (inl MissingIdentity, []).
Proof. reflexivity. Qed.

(** C7: an empty token list should yield a valid record with an empty apps
    sequence. On the line [idfa\tID1\t55.55\t42.42\t], whose fifth field is
    empty, the parser does not: the line has five fields, but trimming it
    removes the trailing tab, four fields are left, and the line is rejected
    with [MalformedLine] before the app list is looked at. *)
Theorem C7_empty_app_list_line_is_malformed `{Extern} :
  Split (tabbed ["idfa"; "ID1"; "55.55"; "42.42"; ""]) (byte 9)
    = ["idfa"; "ID1"; "55.55"; "42.42"; ""]
  ∧ Split (TrimSpace (tabbed ["idfa"; "ID1"; "55.55"; "42.42"; ""])) (byte 9)
    = ["idfa"; "ID1"; "55.55"; "42.42"]
  ∧ parseAppsInstalled (tabbed ["idfa"; "ID1"; "55.55"; "42.42"; ""])
    = (inl MalformedLine, []).
Proof. repeat split; reflexivity. Qed.

(** The loop over the tokens does handle an empty list: when a sixth field
    keeps the trailing tab from being trimmed, the same line is accepted, with
    no apps and no diagnostic. *)
Lemma empty_app_list_accepted_before_sixth_field :
  ∃ r, @parseAppsInstalled extern
         (tabbed ["idfa"; "ID1"; "55.55"; "42.42"; ""; "x"]) = (inr r, [])
       ∧ DevType r = "idfa" ∧ DevID r = "ID1" ∧ Apps r = [].
Proof. eexists. split; [vm_compute; reflexivity|]. by vm_compute. Qed.

(** At the line [idfa\tID1\t55.55\t42.42\t1,,3] the middle token is empty,
    [strconv.ParseUint] rejects it, and it is skipped with no diagnostic at
    all. *)
Lemma empty_token_skipped_silently :
  ParseUint32 (TrimSpace "") = None
  ∧ Split "1,,3" "," = ["1"; ""; "3"]
  ∧ ∃ r, @parseAppsInstalled extern
           (tabbed ["idfa"; "ID1"; "55.55"; "42.42"; "1,,3"]) = (inr r, [])
         ∧ Apps r = [1; 3].
Proof.
  split; [reflexivity|]. split; [reflexivity|].
  eexists. split; [vm_compute; reflexivity|]. by vm_compute.
Qed.

(** The app tokens of a line that still has five fields or more once it is
    trimmed, whose identity is present and whose coordinates parse: the
    record is returned whatever the app tokens are. Its apps are the tokens
    (split on commas, trimmed) that parse as 32-bit unsigned integers, in
    order; one diagnostic is logged for each token that is not empty and does
    not parse, none for an empty token. *)
Lemma app_tokens_of_accepted_line `{Extern}
    line devType devID latStr lonStr rawApps more lat lon :
  Split (TrimSpace line) (byte 9)
    = devType :: devID :: latStr :: lonStr :: rawApps :: more →
  devType ≠ "" → devID ≠ "" →
  ParseFloat latStr = Some lat → ParseFloat lonStr = Some lon →
  parseAppsInstalled line =
    (inr {| DevType := devType; DevID := devID; Lat := lat; Lon := lon;
            Apps := omap ParseUint32 (TrimSpace <$> Split rawApps ",") |},
     (λ _, LogNotAllDigits line) <$> diagnosedTokens (Split rawApps ",")).
Proof.
  unfold parseAppsInstalled. intros -> Ht Hi -> ->.
  rewrite decide_False by tauto. by rewrite parseApps_spec.
Qed.

(** The line [idfa\tID1\t55.55\t42.42\t1,x,3]: apps [1, 3], and one
    diagnostic for the token [x]. *)
Lemma app_tokens_example :
  let l := tabbed ["idfa"; "ID1"; "55.55"; "42.42"; "1,x,3"] in
  ∃ r, @parseAppsInstalled extern l = (inr r, [LogNotAllDigits l])
       ∧ DevType r = "idfa" ∧ DevID r = "ID1" ∧ Apps r = [1; 3].
Proof.
  eexists. split.
  - refine (eq_trans
      (@app_tokens_of_accepted_line extern _ "idfa" "ID1" "55.55" "42.42"
         "1,x,3" [] _ _ _ _ _ _ _) _);
      [reflexivity|discriminate|discriminate
      |vm_compute; reflexivity|vm_compute; reflexivity|].
    vm_compute. reflexivity.
  - by vm_compute.
Qed.

(** When no token of the fifth field parses, the apps of the record are
    empty. *)
Lemma no_app_parses_empty_apps (toks : list string) :
  Forall (λ t, ParseUint32 (TrimSpace t) = None) toks →
  omap ParseUint32 (TrimSpace <$> toks) = [].
Proof.
  induction 1 as [|t toks Ht _ IH]; [done|].
  rewrite fmap_cons. simpl. by rewrite Ht.
Qed.

(** * The scanning goroutine, step by step *)



Section Evaluation.
Context `{Extern}.

(** The counting goroutine does not write to the log, the world or the
    program counter of the scanning goroutine. *)
Lemma counter_step_frame s s' :
  counter_step s = Some s' →
  pc s' = pc s ∧ logs s' = logs s ∧ world s' = world s
  ∧ tasks s' = tasks s ∧ wg s' = wg s ∧ semaphore s' = semaphore s.
Proof.
  unfold counter_step. intros Hs.
  destruct (counter s) as [| |ok|ok v|]; try done.
  - destruct (resultChan s); [destruct (closed s); [|done]|];
      by injection Hs as <-.
  - by injection Hs as <-.
  - destruct ok; by injection Hs as <-.
Qed.

(** C10: a line that is empty once trimmed is skipped. The step of the
    scanning goroutine only moves the scanner to the next line: nothing is
    parsed or logged, no task is dispatched, no counter changes. *)
Theorem C10_blank_line_skipped (a : Args) (s : State) text rest :
  pc s = MScan → scanner s = text :: rest → TrimSpace text = "" →
  ∃ s', main_step a s = Some s'
        ∧ scanner s' = rest ∧ pc s' = MScan
        ∧ logs s' = logs s ∧ tasks s' = tasks s
        ∧ wg s' = wg s ∧ semaphore s' = semaphore s
        ∧ resultChan s' = resultChan s
        ∧ processed s' = processed s ∧ errors s' = errors s
        ∧ counter s' = counter s ∧ world s' = world s.
Proof.
  intros Hpc Hsc Ht. exists (setScanner s rest).
  unfold main_step. rewrite Hpc, Hsc, Ht. simpl. by rewrite Hpc.
Qed.

(** What a rename that the system does not refuse does to the files: the
    file is found under its dotted name, with its content and modification
    time, and no longer under its own name; every other path keeps what it
    had. A refused rename changes nothing. *)
Lemma dotRename_moves (w : World) (p : string) (f : File) :
  files w !! p = Some f → p ∉ locked w →
  snd (dotRename w p) = true
  ∧ files (fst (dotRename w p)) !! dotPath p = Some f
  ∧ (dotPath p ≠ p → files (fst (dotRename w p)) !! p = None)
  ∧ (∀ q, q ≠ p → q ≠ dotPath p →
       files (fst (dotRename w p)) !! q = files w !! q).
Proof.
  intros Hf Hl. unfold dotRename, os_Rename. rewrite Hf.
  rewrite decide_False by done. simpl. split; [done|].
  split; [by rewrite lookup_insert_eq|]. split.
  - intros Hne. rewrite lookup_insert_ne by done. apply lookup_delete_eq.
  - intros q Hq Hq'. rewrite lookup_insert_ne by done.
    by rewrite lookup_delete_ne.
Qed.

Lemma dotRename_refused (w : World) (p : string) :
  p ∈ locked w → dotRename w p = (w, false).
Proof.
  intros Hl. unfold dotRename, os_Rename.
  destruct (files w !! p); [|done]. by rewrite decide_True.
Qed.

(** C5: when the count read at [if processed == 0] is zero, whatever the
    error count, the scanning goroutine goes straight to the rename and
    returns: nothing is logged (no rate, no verdict), the error count is
    not read, and [dotRename] is called on the file. The file is then marked:
    unless the system refuses the rename, it is found under its dotted name,
    content and modification time unchanged, it is gone from its own name,
    and no other path is touched. *)
Theorem C5_zero_processed_is_complete (a : Args) (s : State) :
  pc s = MCheck → processed s = 0 →
  ∃ s1 s2, main_step a s = Some s1 ∧ main_step a s1 = Some s2
           ∧ pc s1 = MRename ∧ pc s2 = MReturn
           ∧ logs s1 = logs s ∧ logs s2 = logs s
           ∧ errors s2 = errors s ∧ processed s2 = 0
           ∧ world s2 = fst (dotRename (world s) (filename a))
           ∧ ∀ f, files (world s) !! filename a = Some f →
                  filename a ∉ locked (world s) →
                  files (world s2) !! dotPath (filename a) = Some f
                  ∧ (dotPath (filename a) ≠ filename a →
                     files (world s2) !! filename a = None)
                  ∧ ∀ q, q ≠ filename a → q ≠ dotPath (filename a) →
                         files (world s2) !! q = files (world s) !! q.
Proof.
  intros Hpc Hp.
  exists (setMain s MRename []),
    (setMain (setWorld (setMain s MRename [])
                (fst (dotRename (world s) (filename a)))) MReturn []).
  unfold main_step at 1. rewrite Hpc, decide_True by done.
  repeat (split; [simpl; by rewrite ?app_nil_r|]).
  intros f Hf Hl. simpl.
  by destruct (dotRename_moves _ _ _ Hf Hl) as (_ & ? & ? & ?).
Qed.


(** C9 (amended): the step at [dotRename(filename)] drops the error: it
    logs nothing and returns, whether the rename failed or not. A failed
    rename leaves the file system as it was, and [main] goes on with the
    next file from the state in which the call returned. *)
Theorem C9_rename_failure_is_silent (a : Args) (s : State) :
  pc s = MRename →
  (∃ s', main_step a s = Some s' ∧ pc s' = MReturn ∧ logs s' = logs s
         ∧ world s' = fst (dotRename (world s) (filename a))
         ∧ (snd (dotRename (world s) (filename a)) = false →
            world s' = world s))
  ∧ (∀ c fi rest sched scheds w lg sem s',
       processFile (argsFor c (path fi)) sched w lg sem = Some s' →
       processAll c (fi :: rest) (sched :: scheds) w lg sem
       = processAll c rest scheds (world s') (logs s') (semaphore s')).
Proof.
  intros Hpc. split.
  - eexists. unfold main_step. rewrite Hpc. split; [done|]. simpl.
    rewrite app_nil_r. repeat split.
    unfold dotRename, os_Rename.
    destruct (files (world s) !! filename a); [|done].
    by destruct (decide (filename a ∈ locked (world s))).
  - intros c fi rest sched scheds w lg sem s' Hp. simpl. by rewrite Hp.
Qed.

End Evaluation.

(** Up to 200 processed records and 200 errors the comparison of binary64
    numbers agrees with the exact one: the load is successful exactly when
    [100 * errors < processed]. *)
Lemma evaluate_exact_on_small_counts :
  forallb (λ p,
    forallb (λ e,
      bool_decide (PrimFloat.ltb (errRate e p) normalErrRate
                   = bool_decide (100 * e < p)))
      (Z.of_nat <$> seq 0 201))
    (Z.of_nat <$> seq 1 200) = true.
Proof. by vm_compute. Qed.

(** It does not for all counts an [int] can hold: with [10^18 + 1] processed
    and [10^16] errors the exact rate is below one hundredth, its nearest
    binary64 is the threshold itself, and the load is logged as failed. *)
Lemma evaluate_inexact_on_large_counts :
  100 * 10 ^ 16 < 10 ^ 18 + 1
  ∧ PrimFloat.ltb (errRate (10 ^ 16) (10 ^ 18 + 1)) normalErrRate = false.
Proof. split; [lia|by vm_compute]. Qed.

(** * The admission gate *)

Lemma sum_list_with_insert {A} (f : A → nat) (l : list A) i x y :
  l !! i = Some x →
  (sum_list_with f (<[i := y]> l) + f x = sum_list_with f l + f y)%nat.
Proof.
  revert i. induction l as [|z l IH]; intros [|i] Hi; simpl in *; try done.
  - injection Hi as ->. lia.
  - specialize (IH i Hi). lia.
Qed.

Section Gate.
Context `{Extern}.

Lemma Inv_enter a w lg : Inv a (enter w lg 0).
Proof. split; simpl; try done; try lia. Qed.

Lemma Inv_main_step a s s' : Inv a s → main_step a s = Some s' → Inv a s'.
Proof.
  intros [Hsem Hcap Hwg Hq Hrel] Hs. unfold main_step in Hs.
  destruct (pc s) eqn:Hpc; simpl in *;
    repeat case_match; simplify_eq;
    split; unfold inFlight in *; simpl; rewrite ?Hpc; simpl;
    rewrite ?sum_list_with_app; simpl; try done; try lia.
  apply Forall_app. split; [done|]. by repeat constructor.
Qed.

Lemma Inv_counter_step a s s' : Inv a s → counter_step s = Some s' → Inv a s'.
Proof.
  intros [Hsem Hcap Hwg Hq Hrel] Hs. unfold counter_step in Hs.
  repeat case_match; simplify_eq;
    split; unfold inFlight in *; simpl; done.
Qed.

Lemma Inv_task_step a i setOk s s' :
  Inv a s → task_step a i setOk s = Some s' → Inv a s'.
Proof.
  intros [Hsem Hcap Hwg Hq Hrel] Hs. unfold task_step in Hs.
  destruct (tasks s !! i) as [t|] eqn:Hi; [|done].
  pose proof (Forall_lookup_1 _ _ _ _ Hrel Hi) as Ht. simpl in Ht.
  destruct t as [p r]. unfold holdsSlot in Ht. simpl in *.
  destruct p; simpl in *; repeat case_match; try done;
    match type of Hs with
    | context [<[i := ?y]> (tasks s)] =>
        pose proof (sum_list_with_insert slots _ _ _ y Hi) as Hslots;
        pose proof (sum_list_with_insert alive _ _ _ y Hi) as Halive
    end;
    simplify_eq;
    (split; unfold inFlight in *; simpl;
     [ | | | | apply Forall_insert; [done|] ];
     unfold slots, alive, holdsSlot in *; simpl in *; try done; try lia).
  all: intros Hqq; specialize (Hq Hqq); lia.
Qed.

Lemma Inv_run a sched s s' : Inv a s → run a sched s = Some s' → Inv a s'.
Proof.
  revert s. induction sched as [|act sched IH]; intros s Hinv Hrun; simpl in *.
  - by injection Hrun as <-.
  - destruct (step a act s) as [s1|] eqn:Hstep; [|done].
    apply (IH s1); [|done]. destruct act; simpl in Hstep.
    + by eapply Inv_main_step.
    + by eapply Inv_counter_step.
    + by eapply Inv_task_step.
Qed.

Lemma slots_le_alive l :
  (sum_list_with slots l ≤ sum_list_with alive l)%nat.
Proof.
  induction l as [|t l IH]; simpl; [done|].
  assert (slots t ≤ alive t)%nat; [|lia].
  unfold slots, alive, holdsSlot. destruct (tpc t); simpl; lia.
Qed.

(** When the call returns, every slot it took has been given back. *)
Lemma processFile_semaphore_empty a sched w lg s :
  processFile a sched w lg 0 = Some s → semaphore s = 0%nat.
Proof.
  unfold processFile. intros Hp.
  destruct (run a sched (enter w lg 0)) as [s1|] eqn:Hrun; [|done].
  destruct (pc s1) eqn:Hpc; try done. injection Hp as ->.
  destruct (Inv_run _ _ _ _ (Inv_enter a w lg) Hrun)
    as [Hsem _ Hwg Hq _].
  rewrite Hpc in *. specialize (Hq eq_refl). simpl in *.
  pose proof (slots_le_alive (tasks s)). unfold inFlight in Hsem. lia.
Qed.

End Gate.

Section GateOfMain.
Context `{Extern}.

Lemma gate_of_Inv a s : Inv a s → gateRespected (semCap a) s.
Proof. intros [Hsem Hcap _ _ Hrel]. repeat split; [lia|done|done]. Qed.

(** One call, any capacity: every state the goroutines of [processFile] can
    reach from an empty semaphore respects the gate. *)
Lemma processFile_gate a sched w lg s :
  run a sched (enter w lg 0) = Some s → gateRespected (semCap a) s.
Proof. intros Hrun. eapply gate_of_Inv, Inv_run; [apply Inv_enter|done]. Qed.

Lemma mainRun_gate c infos scheds w lg s :
  mainRun c infos scheds w lg 0 = Some s → gateRespected semaphoreCap s.
Proof.
  revert scheds w lg.
  induction infos as [|fi rest IH]; intros scheds w lg Hrun; [by destruct scheds|].
  destruct scheds as [|sched scheds']; [done|]. simpl in Hrun.
  destruct scheds' as [|sched' scheds''].
  - by apply (processFile_gate (argsFor c (path fi)) sched w lg).
  - destruct (processFile (argsFor c (path fi)) sched w lg 0) as [s1|] eqn:Hp;
      [|done].
    rewrite (processFile_semaphore_empty _ _ _ _ _ Hp) in Hrun.
    by eapply IH.
Qed.

(** C3: in every state an execution of [main] reaches, whatever the files and
    the schedule, at most 100 write tasks are in flight. The semaphore holds
    one element per task in flight (and one for a task about to be started:
    the slot is taken before [go]), and a task that is past its deferred
    [<-semaphore] has received from it exactly once, whichever way its
    insert ended. *)
Theorem C3_in_flight_bounded c globbed scheds w s :
  mainReaches c globbed scheds w = Some s →
  (inFlight s ≤ 100)%nat
  ∧ semaphore s = (inFlight s + slotPending (pc s))%nat
  ∧ Forall (λ t, released t = if holdsSlot t then 0%nat else 1%nat) (tasks s).
Proof. intros Hrun. by apply mainRun_gate in Hrun. Qed.

(** Every way out of a task goes through the release: after the insert,
    whatever its result (success, a failed write, a failed serialization),
    the task's own steps send the outcome, log the error if there is one,
    receive from the semaphore and call [wg.Done()]. *)
Lemma task_releases_on_every_path a i setOk client apps s :
  tasks s !! i = Some {| tpc := TInsert client apps; released := 0 |} →
  ∃ s1, task_step a i setOk s = Some s1 ∧
    ∃ err, tasks s1 !! i = Some {| tpc := TSend err; released := 0 |}
    ∧ (err = None ∨ err = Some SerializationError
       ∨ err = Some (BackendWriteError (addr client)))
    ∧ ∀ s2, tasks s2 !! i = Some {| tpc := TSend err; released := 0 |} →
        (length (resultChan s2) < resultCap)%nat →
        (0 < semaphore s2)%nat → (0 < wg s2)%nat →
        ∃ s3, run a (match err with
                     | Some _ => [ATask i setOk; ATask i setOk; ATask i setOk;
                                  ATask i setOk]
                     | None => [ATask i setOk; ATask i setOk; ATask i setOk]
                     end) s2
                = Some s3
              ∧ tasks s3 !! i = Some {| tpc := TExit; released := 1 |}
              ∧ semaphore s2 = S (semaphore s3)
              ∧ resultChan s3 = resultChan s2 ++ [bool_decide (err = None)].
Proof.
  intros Hi. unfold task_step at 1. rewrite Hi. simpl.
  unfold insertAppsInstalled.
  assert (Hlen : (i < length (tasks s))%nat) by by eapply lookup_lt_Some.
  destruct (Marshal _) as [packed|];
    [destruct (dry a); [|destruct setOk]|];
    (eexists; split; [done|]; eexists; split;
     [simpl; by rewrite list_lookup_insert_eq|]; split; [tauto|]);
    intros s2 Hi2 Hch Hsem Hwg;
    assert (Hlen2 : (i < length (tasks s2))%nat) by (by eapply lookup_lt_Some);
    destruct (semaphore s2) as [|n] eqn:Esem; try lia;
    destruct (wg s2) as [|m] eqn:Ewg; try lia;
    simpl; unfold task_step; rewrite Hi2; simpl;
    rewrite decide_True by done; simpl;
    rewrite ?list_lookup_insert_eq by (by rewrite ?length_insert); simpl;
    rewrite ?Esem, ?Ewg; simpl;
    rewrite ?list_lookup_insert_eq by (by rewrite ?length_insert); simpl;
    rewrite ?Esem, ?Ewg; simpl;
    rewrite ?list_lookup_insert_eq by (by rewrite ?length_insert); simpl;
    rewrite ?Esem, ?Ewg; simpl;
    (eexists; split; [done|]; simpl;
     rewrite ?list_lookup_insert_eq by (by rewrite ?length_insert); done).
Qed.

End GateOfMain.

(** C1: the counts of a file should be final only when every outcome has been
    counted. In this execution of a file of one valid line the task succeeds
    and its outcome is sent, [wg.Wait()] returns, the channel is closed, the
    sleep ends, and the counts are read while the outcome is still in the
    channel: [processed] is read as 0, no verdict is logged and the file is
    renamed. *)
Theorem C1_counts_read_before_outcome_counted :
  ∃ s, @processFile extern Runs.args Runs.sleepTooShort Runs.oneLine [] 0 = Some s
       ∧ tpc <$> tasks s = [TExit]
       ∧ closed s = true
       ∧ resultChan s = [true]
       ∧ counter s = CRecv
       ∧ processed s = 0 ∧ errors s = 0
       ∧ logs s = [LogProcessing "a.gz"]
       ∧ dom (files (world s)) = {[ ".a.gz" ]}.
Proof. eexists. split; [vm_compute; reflexivity|]. by vm_compute. Qed.

(** C2: the counters should only be written on one synchronized path. In this
    execution the scanning goroutine and the counting goroutine are inside
    [errors++] at the same time, both having read 0; both write 1. The file
    had two failures (a refused write and a line that does not parse), every
    outcome was counted before the counts were read, and [errors] ends at 1. *)
Theorem C2_error_increment_lost :
  (∃ s, @run extern Runs.args Runs.bothInsideIncrement
          (enter Runs.twoLines [] 0) = Some s
        ∧ pc s = MErrStore 0 None ∧ counter s = CStore false 0 ∧ errors s = 0)
  ∧ ∃ s, @processFile extern Runs.args Runs.lostUpdate Runs.twoLines [] 0 = Some s
         ∧ tpc <$> tasks s = [TExit]
         ∧ resultChan s = [] ∧ counter s = CExit
         ∧ logs s = [LogProcessing "a.gz";
                     LogInsertError (BackendWriteError "127.0.0.1:33013")]
         ∧ processed s = 0 ∧ errors s = 1.
Proof.
  split; (eexists; split; [vm_compute; reflexivity|]); by vm_compute.
Qed.

(** C9, as stated, on a file the system refuses to rename: [dotRename] fails,
    the file keeps its name, and the log of the call is the log of the same
    call when the rename succeeds. The failure is not logged. *)
Lemma C9_rename_failure_not_logged :
  snd (@dotRename extern Runs.lockedFile "a.gz") = false
  ∧ (∃ s, @processFile extern Runs.args Runs.emptyFileRun Runs.lockedFile [] 0
          = Some s
          ∧ logs s = [LogProcessing "a.gz"]
          ∧ dom (files (world s)) = {[ "a.gz" ]})
  ∧ (∃ s, @processFile extern Runs.args Runs.emptyFileRun Runs.unlockedFile [] 0
          = Some s
          ∧ logs s = [LogProcessing "a.gz"]
          ∧ dom (files (world s)) = {[ ".a.gz" ]}).
Proof.
  split; [by vm_compute|].
  split; (eexists; split; [vm_compute; reflexivity|]); by vm_compute.
Qed.

(** * The order in which [main] processes the files *)

Section Sorting.
Local Open Scope nat_scope.
Implicit Types l : list fileInfo.

Lemma swap_length l i j : length (swap l i j) = length l.
Proof.
  unfold swap. destruct (l !! i), (l !! j); try done.
  by rewrite !length_insert.
Qed.

Lemma swap_lookup l i j k x y :
  l !! i = Some x → l !! j = Some y →
  swap l i j !! k =
    if decide (k = i) then Some y
    else if decide (k = j) then Some x else l !! k.
Proof.
  intros Hi Hj. unfold swap. rewrite Hi, Hj.
  pose proof (lookup_lt_Some _ _ _ Hi). pose proof (lookup_lt_Some _ _ _ Hj).
  destruct (decide (k = i)) as [->|Hki].
  - by rewrite list_lookup_insert_eq by by rewrite length_insert.
  - rewrite list_lookup_insert_ne by done.
    destruct (decide (k = j)) as [->|Hkj].
    + by rewrite list_lookup_insert_eq.
    + by rewrite list_lookup_insert_ne.
Qed.

Lemma swap_Permutation l i j : swap l i j ≡ₚ l.
Proof.
  destruct (l !! i) as [x|] eqn:Hi; [|by unfold swap; rewrite Hi].
  destruct (l !! j) as [y|] eqn:Hj; [|by unfold swap; rewrite Hi, Hj].
  apply Permutation_inj. split; [apply swap_length|].
  exists (λ k, if decide (k = i) then j else if decide (k = j) then i else k).
  split.
  - intros a b. repeat case_decide; lia.
  - intros k. rewrite (swap_lookup _ _ _ _ _ _ Hi Hj).
    repeat case_decide; by subst.
Qed.

Lemma foldl_seq_invariant {A} (f : A → nat → A) (P : nat → A → Prop)
    (start len : nat) (x : A) :
  P start x →
  (∀ k y, start ≤ k < start + len → P k y → P (S k) (f y k)) →
  P (start + len) (foldl f x (seq start len)).
Proof.
  revert start x. induction len as [|len IH]; intros start x Hx Hstep; simpl.
  - by rewrite Nat.add_0_r.
  - rewrite <- Nat.add_succ_comm. apply IH.
    + apply Hstep; [lia|done].
    + intros k y Hk. apply Hstep. lia.
Qed.

Section Inner.
Variables (l0 : list fileInfo) (i : nat).
Hypothesis Hi : i < length l0.

Lemma sortBody_inv j l :
  S i ≤ j < length l0 → innerInv l0 i j l → innerInv l0 i (S j) (sortBody i l j).
Proof.
  intros Hj (Hlen & Hperm & Hset & Hmin). unfold sortBody.
  destruct (lookup_lt_is_Some_2 l i) as [x Hx]; [lia|].
  destruct (lookup_lt_is_Some_2 l j) as [y Hy]; [lia|].
  rewrite Hx, Hy. unfold After.
  destruct (Z.ltb_spec (fiModTime y) (fiModTime x)) as [Hlt|Hge].
  - split; [by rewrite swap_length|]. split; [by rewrite swap_Permutation|].
    split.
    + intros a b xa yb Hab Hai.
      rewrite !(swap_lookup _ _ _ _ _ _ Hx Hy).
      rewrite (decide_False (P := a = i)) by lia.
      rewrite (decide_False (P := a = j)) by lia.
      intros Ha. repeat case_decide; intros Hb; simplify_eq.
      * eapply (Hset a j); eauto; lia.
      * eapply (Hset a i); eauto.
      * eapply (Hset a b); eauto.
    + intros k x' y' Hk. rewrite !(swap_lookup _ _ _ _ _ _ Hx Hy).
      rewrite decide_True by done. intros [= <-].
      rewrite (decide_False (P := k = i)) by lia.
      case_decide; intros Hk'; simplify_eq; [lia|].
      specialize (Hmin k x y' ltac:(lia) Hx Hk'). lia.
  - split; [done|]. split; [done|]. split; [done|].
    intros k x' y' Hk Hx' Hk'. simplify_eq.
    destruct (decide (k = j)) as [->|]; [simplify_eq; lia|].
    eapply (Hmin k); [lia|done|done].
Qed.

Lemma sortInner_inv l :
  length l = length l0 → l ≡ₚ l0 → settled l i →
  length (sortInner l i) = length l0 ∧ sortInner l i ≡ₚ l0
  ∧ settled (sortInner l i) (S i).
Proof.
  intros Hlen Hperm Hset. unfold sortInner. rewrite Hlen.
  pose proof (foldl_seq_invariant (sortBody i) (innerInv l0 i) (S i)
                (length l0 - S i) l) as Hfold.
  replace (S i + (length l0 - S i)) with (length l0) in Hfold by lia.
  destruct Hfold as (Hlen' & Hperm' & Hset' & Hmin').
  - split; [done|]. split; [done|]. split; [done|]. intros; lia.
  - intros k y Hk. apply sortBody_inv. lia.
  - split; [done|]. split; [done|].
    intros a b x y Hab Ha Hxa Hyb.
    destruct (decide (a = i)) as [->|].
    + apply (Hmin' b x y); [|done|done].
      apply lookup_lt_Some in Hyb. lia.
    + apply (Hset' a b x y); [done|lia|done|done].
Qed.

End Inner.

Lemma sortFileInfos_inv l :
  length (sortFileInfos l) = length l ∧ sortFileInfos l ≡ₚ l
  ∧ settled (sortFileInfos l) (length l).
Proof.
  unfold sortFileInfos.
  apply (foldl_seq_invariant sortInner
           (λ i l', length l' = length l ∧ l' ≡ₚ l ∧ settled l' i)
           0 (length l) l).
  - split; [done|]. split; [done|]. intros a b x y _ Ha. lia.
  - intros k l' Hk (Hlen & Hperm & Hset). apply sortInner_inv; [lia|done..].
Qed.

Lemma sortFileInfos_ascending l : ascending (sortFileInfos l).
Proof.
  destruct (sortFileInfos_inv l) as (Hlen & _ & Hset).
  intros a b x y Hab Ha Hb. apply (Hset a b x y); [done| |done|done].
  apply lookup_lt_Some in Hb. lia.
Qed.

Lemma sortFileInfos_Permutation l : sortFileInfos l ≡ₚ l.
Proof. apply sortFileInfos_inv. Qed.

End Sorting.

Lemma started_app lg1 lg2 : started (lg1 ++ lg2) = started lg1 ++ started lg2.
Proof. apply omap_app. Qed.

Lemma statFiles_spec w globbed infos lg :
  statFiles w globbed infos lg =
    (infos ++ omap (λ f, (λ t, {| path := f; fiModTime := t |}) <$> os_Stat w f)
                globbed,
     lg ++ omap (λ f, match os_Stat w f with
                      | None => Some (LogStatError f)
                      | Some _ => None
                      end) globbed).
Proof.
  revert infos lg. induction globbed as [|f rest IH]; intros infos lg; simpl.
  - by rewrite !app_nil_r.
  - destruct (os_Stat w f) as [t|]; rewrite IH; simpl; by rewrite <- app_assoc.
Qed.

Lemma statFiles_not_started w globbed :
  started (snd (statFiles w globbed [] [])) = [].
Proof.
  rewrite statFiles_spec. simpl.
  induction globbed as [|f rest IH]; [done|]. simpl.
  by destruct (os_Stat w f).
Qed.

Section Trace.
Context `{Extern}.

Lemma parse_not_started line : started (snd (parseAppsInstalled line)) = [].
Proof.
  unfold parseAppsInstalled.
  repeat case_match; simplify_eq; try done.
  match goal with
  | Hp : parseApps _ _ _ _ = _ |- _ => rewrite parseApps_spec in Hp
  end.
  simplify_eq. simpl. by induction (diagnosedTokens _).
Qed.

Lemma traceInv_step a lg0 act s s' :
  traceInv a lg0 s → step a act s = Some s' → traceInv a lg0 s'.
Proof.
  unfold traceInv. intros Hinv Hs. destruct act as [| |i setOk]; simpl in Hs.
  - unfold main_step in Hs.
    destruct (pc s) eqn:Hpc; simpl in *; cases_of Hs;
      simplify_eq; simpl; rewrite ?Hpc, ?started_app, ?Hinv; unfold evaluate;
      repeat case_match; simpl;
      rewrite ?app_nil_r, <- ?app_assoc; try done.
    all: match goal with
         | Hp : parseAppsInstalled ?line = (_, ?lg) |- _ =>
             pose proof (parse_not_started line) as Hn; rewrite Hp in Hn;
             simpl in Hn; rewrite Hn
         end; by rewrite ?app_nil_r.
  - destruct (counter_step_frame _ _ Hs) as (-> & -> & _). done.
  - unfold task_step, insertAppsInstalled in Hs.
    cases_of Hs; simplify_eq; simpl;
      rewrite ?started_app, ?Hinv; simpl; by rewrite ?app_nil_r.
Qed.

Lemma traceInv_run a lg0 sched s s' :
  traceInv a lg0 s → run a sched s = Some s' → traceInv a lg0 s'.
Proof.
  revert s. induction sched as [|act sched IH]; intros s Hinv Hrun; simpl in *.
  - by injection Hrun as <-.
  - destruct (step a act s) as [s1|] eqn:Hstep; [|done].
    apply (IH s1); [|done]. by eapply traceInv_step.
Qed.

Lemma processFile_started a sched w lg sem s :
  processFile a sched w lg sem = Some s →
  started (logs s) = started lg ++ [filename a].
Proof.
  unfold processFile. intros Hp.
  destruct (run a sched (enter w lg sem)) as [s1|] eqn:Hrun; [|done].
  destruct (pc s1) eqn:Hpc; try done. injection Hp as ->.
  assert (Hent : traceInv a lg (enter w lg sem))
    by (unfold traceInv; simpl; by rewrite app_nil_r).
  pose proof (traceInv_run a lg sched _ _ Hent Hrun) as Ht.
  unfold traceInv in Ht. by rewrite Hpc in Ht.
Qed.

Lemma processAll_started c infos scheds w lg sem w' lg' :
  processAll c infos scheds w lg sem = Some (w', lg') →
  started lg' = started lg ++ (path <$> infos).
Proof.
  revert scheds w lg sem.
  induction infos as [|fi rest IH]; intros scheds w lg sem Hp; simpl in *.
  - injection Hp as _ <-. by rewrite app_nil_r.
  - destruct scheds as [|sched scheds']; [done|].
    destruct (processFile _ sched w lg sem) as [s|] eqn:Hf; [|done].
    rewrite (IH _ _ _ _ Hp), (processFile_started _ _ _ _ _ _ Hf). simpl.
    by rewrite <- app_assoc.
Qed.

(** C8 (amended): when [main] ends, the files whose processing began are, in
    that order, the globbed files whose modification time could be read,
    sorted by ascending modification time: the order is a permutation of
    those files and the times never decrease along it. A call of
    [processFile] begins when the one before has returned. (Files of equal
    times come in the order the exchange sort leaves them in.) *)
Theorem C8_processed_in_ascending_order c globbed scheds w w' lg' :
  main c globbed scheds w = Some (w', lg') →
  started lg' = path <$> processingOrder w globbed
  ∧ processingOrder w globbed
      ≡ₚ omap (λ f, (λ t, {| path := f; fiModTime := t |}) <$> os_Stat w f)
           globbed
  ∧ ascending (processingOrder w globbed).
Proof.
  unfold main. intros Hm.
  destruct (processAll _ _ _ _ _ _) as [[w1 lg1]|] eqn:Hp; [|done].
  injection Hm as _ <-. split; [|split].
  - rewrite started_app, (processAll_started _ _ _ _ _ _ _ _ Hp).
    rewrite started_app, statFiles_not_started. simpl. by rewrite app_nil_r.
  - unfold processingOrder. rewrite sortFileInfos_Permutation.
    by rewrite statFiles_spec.
  - apply sortFileInfos_ascending.
Qed.

End Trace.

(** * The theorems at concrete inputs *)

Lemma C3_in_flight_bounded_witness :
  inFlight Runs.inFlightState = 1%nat
  ∧ (inFlight Runs.inFlightState ≤ 100)%nat
  ∧ semaphore Runs.inFlightState
    = (inFlight Runs.inFlightState + slotPending (pc Runs.inFlightState))%nat
  ∧ Forall (λ t, released t = if holdsSlot t then 0%nat else 1%nat)
      (tasks Runs.inFlightState).
Proof.
  split; [by vm_compute|].
  apply (@C3_in_flight_bounded extern Runs.config ["a.gz"] [Runs.taskStarted]
           Runs.oneLine).
  vm_compute. reflexivity.
Defined.


Lemma C5_zero_processed_is_complete_witness :
  processed Runs.checkZero = 0 ∧ errors Runs.checkZero = 2
  ∧ ∃ s1 s2, @main_step extern Runs.args Runs.checkZero = Some s1
      ∧ @main_step extern Runs.args s1 = Some s2
      ∧ pc s1 = MRename ∧ pc s2 = MReturn
      ∧ logs s1 = logs Runs.checkZero ∧ logs s2 = logs Runs.checkZero
      ∧ logs s2 = [LogProcessing "a.gz"]
      ∧ files (world s2) !! ".a.gz"
        = Some (Runs.gz ["garbage"; "rubbish"])
      ∧ files (world s2) !! "a.gz" = None.
Proof.
  split; [by vm_compute|]. split; [by vm_compute|].
  destruct (@C5_zero_processed_is_complete extern Runs.args Runs.checkZero)
    as (s1 & s2 & H1 & H2 & Hp1 & Hp2 & Hl1 & Hl2 & _ & _ & _ & Hmoved);
    [by vm_compute..|].
  destruct (Hmoved (Runs.gz ["garbage"; "rubbish"]))
    as (Hdot & Hgone & _); [by vm_compute..|].
  exists s1, s2. do 6 (split; [assumption|]).
  split; [by rewrite Hl2|]. split; [exact Hdot|]. by apply Hgone.
Defined.

(** C8, as stated: [a.gz] and [b.gz] have the same modification time and
    [a.gz] is found first, yet [b.gz] is processed before [a.gz]. The sort is
    not stable. *)
Lemma C8_ties_not_stable :
  os_Stat Runs.tiedFiles "a.gz" = os_Stat Runs.tiedFiles "b.gz"
  ∧ path <$> processingOrder Runs.tiedFiles ["a.gz"; "b.gz"; "c.gz"]
    = ["c.gz"; "b.gz"; "a.gz"]
  ∧ ∃ w lg, @main extern Runs.config ["a.gz"; "b.gz"; "c.gz"]
              [Runs.emptyFileRun; Runs.emptyFileRun; Runs.emptyFileRun]
              Runs.tiedFiles = Some (w, lg)
            ∧ started lg = ["c.gz"; "b.gz"; "a.gz"].
Proof.
  split; [by vm_compute|]. split; [by vm_compute|].
  eexists _, _. split; [vm_compute; reflexivity|]. by vm_compute.
Qed.

(** Files of modification times T3 < T1 < T2, found as t1, t2, t3, are
    processed in the order t3, t1, t2. *)
Lemma C8_processed_in_ascending_order_witness :
  ∃ w lg, @main extern Runs.config ["t1.gz"; "t2.gz"; "t3.gz"]
            [Runs.emptyFileRun; Runs.emptyFileRun; Runs.emptyFileRun]
            Runs.threeFiles = Some (w, lg)
          ∧ started lg = ["t3.gz"; "t1.gz"; "t2.gz"].
Proof.
  eexists _, _. split; [vm_compute; reflexivity|].
  refine (eq_trans (proj1 (@C8_processed_in_ascending_order extern Runs.config
            ["t1.gz"; "t2.gz"; "t3.gz"]
            [Runs.emptyFileRun; Runs.emptyFileRun; Runs.emptyFileRun]
            Runs.threeFiles _ _ _)) _).
  - vm_compute. reflexivity.
  - by vm_compute.
Defined.

Lemma C9_rename_failure_is_silent_witness :
  snd (@dotRename extern (world Runs.atRename) (filename Runs.args)) = false
  ∧ ∃ s', @main_step extern Runs.args Runs.atRename = Some s'
          ∧ pc s' = MReturn ∧ logs s' = logs Runs.atRename
          ∧ world s' = world Runs.atRename.
Proof.
  split; [by vm_compute|].
  destruct (proj1 (@C9_rename_failure_is_silent extern Runs.args Runs.atRename
                     ltac:(by vm_compute)))
    as (s' & Hstep & Hpc & Hlogs & _ & Hworld).
  exists s'. repeat split; [done..|]. apply Hworld. by vm_compute.
Defined.

Lemma C10_blank_line_skipped_witness :
  ∃ s', @main_step extern Runs.args Runs.atBlank = Some s'
        ∧ scanner s' = [Runs.goodLine] ∧ pc s' = MScan
        ∧ logs s' = logs Runs.atBlank ∧ tasks s' = tasks Runs.atBlank
        ∧ wg s' = wg Runs.atBlank ∧ semaphore s' = semaphore Runs.atBlank
        ∧ resultChan s' = resultChan Runs.atBlank
        ∧ processed s' = processed Runs.atBlank
        ∧ errors s' = errors Runs.atBlank
        ∧ counter s' = counter Runs.atBlank ∧ world s' = world Runs.atBlank.
Proof.
  apply (@C10_blank_line_skipped extern Runs.args Runs.atBlank "   "
           [Runs.goodLine]); by vm_compute.
Defined.

(** * Further properties of the parser *)

Lemma digit_range c d : digit c = Some d → 0 ≤ d ≤ 9.
Proof.
  unfold digit. case_match eqn:Hc; [|done]. intros [= <-].
  apply andb_prop in Hc as [H1%Nat.leb_le H2%Nat.leb_le]. lia.
Qed.

Lemma parseUintLoop_range s n v :
  0 ≤ n ≤ maxVal → parseUintLoop s n = Some v → 0 ≤ v ≤ maxVal.
Proof.
  revert n. induction s as [|c r IH]; intros n Hn; simpl.
  - by intros [= <-].
  - destruct (digit c) as [d|] eqn:Hd; [|done].
    apply digit_range in Hd.
    destruct (cutoff <=? n); [done|].
    destruct (Z.ltb_spec maxVal (n * 10 + d)); [done|].
    apply IH. lia.
Qed.

Lemma ParseUint32_range s v : ParseUint32 s = Some v → 0 ≤ v ≤ 4294967295.
Proof.
  unfold ParseUint32. destruct s; [done|].
  apply parseUintLoop_range. unfold maxVal. lia.
Qed.

Section ParserMore.
Context `{Extern}.

(** X1: Every record [parseAppsInstalled] returns has a device type and a device
    id that are not empty, app ids that fit 32 unsigned bits, and no more apps
    and diagnostics together than the fifth field has tokens. *)
Theorem parsed_record_well_formed line r lg :
  parseAppsInstalled line = (inr r, lg) →
  DevType r ≠ "" ∧ DevID r ≠ ""
  ∧ Forall (λ app, 0 ≤ app ≤ 4294967295) (Apps r)
  ∧ Forall (λ e, e = LogNotAllDigits line) lg
  ∧ ∃ rawApps, Split (TrimSpace line) (byte 9) !! 4%nat = Some rawApps
      ∧ (length (Apps r) + length lg ≤ length (Split rawApps ","))%nat.
Proof.
  unfold parseAppsInstalled.
  destruct (Split (TrimSpace line) (byte 9))
    as [|devType [|devID [|latStr [|lonStr [|rawApps more]]]]]; try done.
  destruct (decide (devType = "" ∨ devID = "")) as [|Hid]; [done|].
  destruct (ParseFloat latStr) as [lat|]; [|done].
  destruct (ParseFloat lonStr) as [lon|]; [|done].
  rewrite parseApps_spec. simpl. intros [= <- <-]. simpl.
  split; [tauto|]. split; [tauto|]. split; [|split].
  - apply Forall_forall. intros app Happ.
    apply list_elem_of_omap in Happ as (tok & _ & Hp).
    by apply ParseUint32_range in Hp.
  - apply Forall_forall. intros e He.
    by apply list_elem_of_fmap in He as (tok & -> & _).
  - exists rawApps. split; [done|].
    rewrite length_fmap. unfold diagnosedTokens.
    generalize (Split rawApps ","). intros toks. unfold omap.
    induction toks as [|tok toks IH]; [done|]. rewrite fmap_cons. simpl.
    destruct (decide (diagnosed (TrimSpace tok))) as [Hd|Hd].
    + rewrite filter_cons_True by done. destruct Hd as [_ ->]. simpl. lia.
    + rewrite filter_cons_False by done.
      destruct (ParseUint32 (TrimSpace tok)); simpl; lia.
Qed.

(** X2: A line that [parseAppsInstalled] rejects logs nothing, and the error
    tells which check failed first: [MalformedLine] exactly when the trimmed
    line has fewer than five tab-separated fields; [MissingIdentity] only for an
    empty second field (the first one is never empty); a coordinate error only
    for a field that [strconv.ParseFloat] rejects, the latitude first. The fifth
    field plays no part. *)
Theorem parse_error_tells_first_failed_check line e lg :
  parseAppsInstalled line = (inl e, lg) →
  let parts := Split (TrimSpace line) (byte 9) in
  lg = []
  ∧ (e = MalformedLine ↔ (length parts < 5)%nat)
  ∧ (e = MissingIdentity →
     parts !! 1%nat = Some "" ∧ parts !! 0%nat ≠ Some "")
  ∧ (e = InvalidCoordinateLat →
     ∃ latStr, parts !! 2%nat = Some latStr ∧ ParseFloat latStr = None)
  ∧ (e = InvalidCoordinateLon →
     ∃ latStr lonStr, parts !! 2%nat = Some latStr
       ∧ parts !! 3%nat = Some lonStr
       ∧ is_Some (ParseFloat latStr) ∧ ParseFloat lonStr = None).
Proof.
  intros Hp. cbv zeta. unfold parseAppsInstalled in Hp.
  destruct (Split (TrimSpace line) (byte 9))
    as [|devType [|devID [|latStr [|lonStr [|rawApps more]]]]] eqn:Hs;
    try (injection Hp as <- <-; simpl; repeat split; try done; lia).
  destruct (decide (devType = "" ∨ devID = "")) as [Hid|Hid].
  { injection Hp as <- <-. simpl. repeat split; try done; try lia.
    - destruct Hid as [->| ->]; [|done].
      by apply devType_never_empty in Hs.
    - intros [= ->]. by apply devType_never_empty in Hs. }
  destruct (ParseFloat latStr) as [lat|] eqn:Hlat.
  2:{ injection Hp as <- <-. simpl. repeat split; try done; try lia. eauto. }
  destruct (ParseFloat lonStr) as [lon|] eqn:Hlon.
  2:{ injection Hp as <- <-. simpl. repeat split; try done; try lia.
      exists latStr, lonStr. eauto. }
  by destruct (parseApps _ _ _ _).
Qed.

(** X3: [insertAppsInstalled] succeeds exactly when the message serializes and
    either the run is dry or the server accepts the write. A dry run never
    depends on the server and logs the write it would have made, under the key
    [DevType:DevID]; a real run logs nothing. A failed serialization is reported
    as such whatever the server would have answered. *)
Theorem insert_outcome client a dry setOk :
  let ua := {| ua_Lat := Lat a; ua_Lon := Lon a; ua_Apps := Apps a |} in
  let '(err, lg) := insertAppsInstalled client a dry setOk in
  (err = None ↔ is_Some (Marshal ua) ∧ (dry = true ∨ setOk = true))
  ∧ (err = Some SerializationError ↔ Marshal ua = None)
  ∧ (err = Some (BackendWriteError (addr client)) ↔
     is_Some (Marshal ua) ∧ dry = false ∧ setOk = false)
  ∧ (dry = true →
     insertAppsInstalled client a dry setOk
     = insertAppsInstalled client a dry (negb setOk))
  ∧ lg = (if dry then
            match Marshal ua with
            | Some _ =>
                [LogDryRun (addr client) (DevType a +:+ ":" +:+ DevID a)
                   (Lat a) (Lon a) (Apps a)]
            | None => []
            end
          else []).
Proof.
  unfold insertAppsInstalled. simpl.
  destruct (Marshal _) as [packed|], dry, setOk; simpl;
    repeat split; try done; try (by intros [[? ?] ?]);
    try (by intros [? [? | ?]]); try (by intros [? [? ?]]); eauto.
Qed.

End ParserMore.

(** * Further properties of [processFile] *)

Section FileMore.
Context `{Extern}.

Lemma task_step_frame a i setOk s s' :
  task_step a i setOk s = Some s' →
  pc s' = pc s ∧ world s' = world s ∧ counter s' = counter s
  ∧ closed s' = closed s ∧ scanner s' = scanner s
  ∧ length (tasks s') = length (tasks s).
Proof.
  unfold task_step, insertAppsInstalled. intros Hs.
  cases_of Hs; simplify_eq; simpl; by rewrite ?length_insert.
Qed.

(** Once the call has returned without having started a goroutine, nothing
    can run. *)
Lemma returned_early_stuck a act s :
  pc s = MReturn → counter s = CNone → tasks s = [] → step a act s = None.
Proof.
  intros Hpc Hc Ht. destruct act; simpl.
  - unfold main_step. by rewrite Hpc.
  - unfold counter_step. by rewrite Hc.
  - unfold task_step. by rewrite Ht.
Qed.

Lemma enter_first_step a act w lg sem s :
  step a act (enter w lg sem) = Some s → act = AMain.
Proof. by destruct act. Qed.

(** X4: A file that cannot be opened is skipped: whatever the schedule, the call
    returns after its first step, having logged the file and the error; the file
    system is untouched (the file is not renamed), no line is read and no
    goroutine is started. *)
Theorem unopenable_file_is_skipped a sched w lg sem s :
  os_Open w (filename a) = None →
  processFile a sched w lg sem = Some s →
  sched = [AMain]
  ∧ world s = w
  ∧ logs s = lg ++ [LogProcessing (filename a); LogOpenError (filename a)]
  ∧ tasks s = [] ∧ counter s = CNone ∧ semaphore s = sem.
Proof.
  unfold processFile. intros Hopen Hp.
  destruct sched as [|act rest]; [done|]. simpl in Hp.
  destruct (step a act (enter w lg sem)) as [s1|] eqn:Hstep; [|done].
  pose proof (enter_first_step _ _ _ _ _ _ Hstep) as ->.
  simpl in Hstep. unfold main_step in Hstep. simpl in Hstep.
  rewrite Hopen in Hstep. injection Hstep as <-.
  destruct rest as [|act rest]; simpl in Hp.
  - injection Hp as <-. simpl. by rewrite <- app_assoc.
  - by rewrite returned_early_stuck in Hp.
Qed.

(** X5: A file that opens but is no gzip stream is skipped the same way, with
    the error of [gzip.NewReader] in the log. *)
Theorem non_gzip_file_is_skipped a sched w lg sem f s :
  os_Open w (filename a) = Some f → body f = NotGzip →
  processFile a sched w lg sem = Some s →
  sched = [AMain]
  ∧ world s = w
  ∧ logs s = lg ++ [LogProcessing (filename a); LogGzipError (filename a)]
  ∧ tasks s = [] ∧ counter s = CNone ∧ semaphore s = sem.
Proof.
  unfold processFile. intros Hopen Hbody Hp.
  destruct sched as [|act rest]; [done|]. simpl in Hp.
  destruct (step a act (enter w lg sem)) as [s1|] eqn:Hstep; [|done].
  pose proof (enter_first_step _ _ _ _ _ _ Hstep) as ->.
  simpl in Hstep. unfold main_step in Hstep. simpl in Hstep.
  rewrite Hopen, Hbody in Hstep. injection Hstep as <-.
  destruct rest as [|act rest]; simpl in Hp.
  - injection Hp as <-. simpl. by rewrite <- app_assoc.
  - by rewrite returned_early_stuck in Hp.
Qed.

(** ** The file system during a call *)

Lemma world_step a w0 act s s' :
  step a act s = Some s' →
  (pc s ≠ MReturn → world s = w0) →
  (pc s' ≠ MReturn → world s' = w0)
  ∧ (world s' = world s
     ∨ (pc s ≠ MReturn ∧ pc s' = MReturn
        ∧ world s' = fst (dotRename w0 (filename a)))).
Proof.
  intros Hs Hw. destruct act as [| |i setOk]; simpl in Hs.
  - unfold main_step in Hs.
    destruct (pc s) eqn:Hpc; simpl in *; cases_of Hs; simplify_eq; simpl;
      rewrite ?Hpc; split; auto; try done.
    right. by rewrite Hw.
  - destruct (counter_step_frame _ _ Hs) as (-> & _ & -> & _). auto.
  - destruct (task_step_frame _ _ _ _ _ Hs) as (-> & -> & _). auto.
Qed.

(** X6: Under every schedule, a call of [processFile] leaves the file system as
    it found it until it returns, and changes it by nothing but its one
    [dotRename]: every path other than the file's and its dotted name keeps what
    it had, and what is found under the dotted name afterwards is the file
    itself, content and modification time unchanged. *)
Theorem processFile_touches_only_its_file a sched w lg sem s :
  run a sched (enter w lg sem) = Some s →
  (pc s ≠ MReturn → world s = w)
  ∧ (world s = w ∨ world s = fst (dotRename w (filename a)))
  ∧ (∀ p, p ≠ filename a → p ≠ dotPath (filename a) →
       files (world s) !! p = files w !! p)
  ∧ (world s ≠ w →
     files (world s) !! dotPath (filename a) = files w !! filename a).
Proof.
  intros Hrun.
  assert (Hinv : (pc s ≠ MReturn → world s = w)
                 ∧ (world s = w ∨ world s = fst (dotRename w (filename a)))).
  { assert (Hgen : ∀ s0,
      (pc s0 ≠ MReturn → world s0 = w) →
      (world s0 = w ∨ world s0 = fst (dotRename w (filename a))) →
      run a sched s0 = Some s →
      (pc s ≠ MReturn → world s = w)
      ∧ (world s = w ∨ world s = fst (dotRename w (filename a)))).
    { clear Hrun. induction sched as [|act rest IH]; intros s0 H1 H2 Hr;
        simpl in Hr.
      - by injection Hr as <-.
      - destruct (step a act s0) as [s1|] eqn:Hstep; [|done].
        destruct (world_step a w act s0 s1 Hstep H1) as [H1' H2'].
        apply (IH s1); [done| |done].
        destruct H2' as [->|(_ & _ & ->)]; auto. }
    by apply (Hgen (enter w lg sem)); auto. }
  destruct Hinv as [H1 H2]. split; [done|]. split; [done|].
  unfold dotRename, os_Rename in *.
  destruct (files w !! filename a) as [f|] eqn:Hf;
    [destruct (decide (filename a ∈ locked w))|]; simpl in *.
  - assert (Hw : world s = w) by (by destruct H2).
    rewrite Hw. split; [done|]. intros Hne. by destruct Hne.
  - split.
    + intros p Hp1 Hp2. destruct H2 as [->| ->]; [done|]. simpl.
      rewrite lookup_insert_ne by done. by rewrite lookup_delete_ne.
    + intros Hne. destruct H2 as [Hw|Hw]; [by destruct Hne|].
      rewrite Hw. simpl. by rewrite lookup_insert_eq.
  - assert (Hw : world s = w) by (by destruct H2).
    rewrite Hw. split; [done|]. intros Hne. by destruct Hne.
Qed.

(** ** The join on the write tasks *)

Lemma sum_list_with_zero {A} (f : A → nat) (l : list A) :
  sum_list_with f l = 0%nat → Forall (λ x, f x = 0%nat) l.
Proof.
  induction l as [|x l IH]; simpl; [done|].
  intros Hs. constructor; [lia|apply IH; lia].
Qed.

(** X7: When a call of [processFile] returns, under whatever schedule, every
    write task it started has run to its end: [wg.Wait()] is a real join on the
    tasks. The WaitGroup counter is zero, the semaphore is empty again for the
    next file, and each task has given its slot back once. *)
Theorem processFile_joins_its_tasks a sched w lg s :
  processFile a sched w lg 0 = Some s →
  Forall (λ t, tpc t = TExit ∧ released t = 1%nat) (tasks s)
  ∧ wg s = 0%nat ∧ semaphore s = 0%nat.
Proof.
  unfold processFile. intros Hp.
  destruct (run a sched (enter w lg 0)) as [s1|] eqn:Hrun; [|done].
  destruct (pc s1) eqn:Hpc; try done. injection Hp as ->.
  destruct (Inv_run _ _ _ _ (Inv_enter a w lg) Hrun)
    as [Hsem _ Hwg Hq Hrel].
  rewrite Hpc in *. specialize (Hq eq_refl). simpl in *.
  assert (Hal : sum_list_with alive (tasks s) = 0%nat) by lia.
  pose proof (slots_le_alive (tasks s)). unfold inFlight in Hsem.
  split; [|split; [done|lia]].
  apply sum_list_with_zero in Hal.
  rewrite Forall_forall in Hal, Hrel. apply Forall_forall. intros t Ht.
  specialize (Hal t Ht). specialize (Hrel t Ht).
  unfold alive, holdsSlot in *. by destruct (tpc t).
Qed.

End FileMore.

(** ** Lines that are counted as errors on the spot *)

Section Routing.
Context `{Extern}.

(** The clients [main] builds answer for the four device types and for no
    other. *)
Lemma clients_lookup c t :
  clients c !! t =
    if decide (t = "idfa") then Some {| addr := Idfa c |}
    else if decide (t = "gaid") then Some {| addr := Gaid c |}
    else if decide (t = "adid") then Some {| addr := Adid c |}
    else if decide (t = "dvid") then Some {| addr := Dvid c |}
    else None.
Proof.
  unfold clients. rewrite !lookup_insert, lookup_empty.
  repeat case_decide; by simplify_eq.
Qed.

(** X8: A line that is not blank and either does not parse or names a device
    type other than idfa, gaid, adid and dvid is counted as one error by the
    scanning goroutine itself: two steps later it is back at the scan of the
    next line, [errors] is one more than the value it read, no task is started,
    the WaitGroup and the semaphore are untouched; an unknown device type is
    logged, after the diagnostics of the parser. *)
Theorem line_failure_counted_on_the_spot c file s text rest :
  pc s = MScan → scanner s = text :: rest → TrimSpace text ≠ "" →
  match fst (parseAppsInstalled (TrimSpace text)) with
  | inl _ => True
  | inr apps => DevType apps ∉ ["idfa"; "gaid"; "adid"; "dvid"]
  end →
  ∃ s1 s2,
    main_step (argsFor c file) s = Some s1
    ∧ main_step (argsFor c file) s1 = Some s2
    ∧ pc s2 = MScan ∧ scanner s2 = rest
    ∧ errors s2 = wrap64 (errors s + 1) ∧ processed s2 = processed s
    ∧ tasks s2 = tasks s ∧ wg s2 = wg s ∧ semaphore s2 = semaphore s
    ∧ resultChan s2 = resultChan s
    ∧ logs s2 = logs s ++ snd (parseAppsInstalled (TrimSpace text))
                  ++ match fst (parseAppsInstalled (TrimSpace text)) with
                     | inl _ => []
                     | inr apps => [LogUnknownDevice (DevType apps)]
                     end.
Proof.
  intros Hpc Hsc Ht Hfail. unfold main_step at 1.
  rewrite Hpc, Hsc, decide_False by done.
  destruct (parseAppsInstalled (TrimSpace text)) as [[e|apps] lg];
    simpl in *.
  - eexists _, _. split; [done|]. unfold main_step. simpl.
    split; [done|]. simpl. rewrite <- !app_assoc. by repeat split.
  - assert (Hroute : clients c !! DevType apps = None).
    { rewrite clients_lookup. repeat case_decide; try done;
        exfalso; apply Hfail; set_solver. }
    rewrite Hroute.
    eexists _, _. split; [done|]. unfold main_step. simpl.
    split; [done|]. simpl. rewrite <- !app_assoc. by repeat split.
Qed.

End Routing.

(** ** No deadlock *)

Lemma sum_list_with_pos {A} (f : A → nat) (l : list A) :
  (0 < sum_list_with f l)%nat → ∃ i x, l !! i = Some x ∧ (0 < f x)%nat.
Proof.
  induction l as [|x l IH]; simpl; [lia|]. intros Hs.
  destruct (decide (0 < f x)%nat) as [Hx|Hx].
  - by exists 0%nat, x.
  - destruct IH as (i & y & Hi & Hy); [lia|]. by exists (S i), y.
Qed.

Lemma sum_list_with_lookup {A} (f : A → nat) (l : list A) i x :
  l !! i = Some x → (f x ≤ sum_list_with f l)%nat.
Proof.
  revert i. induction l as [|y l IH]; intros [|i] Hi; simpl in *; try done.
  - injection Hi as ->. lia.
  - specialize (IH i Hi). lia.
Qed.

Section Progress.
Context `{Extern}.

Lemma counterInv_step a act s s' :
  counterInv s → step a act s = Some s' → counterInv s'.
Proof.
  unfold counterInv. intros Hinv Hs. destruct act as [| |i setOk]; simpl in Hs.
  - unfold main_step in Hs.
    destruct (pc s) eqn:Hpc; simpl in *; cases_of Hs; simplify_eq; simpl;
      rewrite ?Hpc; simpl; try done; auto.
  - destruct (counter_step_frame _ _ Hs) as (Hpc & _). rewrite Hpc.
    intros Hsc. specialize (Hinv Hsc) as [Hcl Hrun].
    unfold counter_step in Hs. cases_of Hs; simplify_eq; simpl; done.
  - destruct (task_step_frame _ _ _ _ _ Hs) as (-> & _ & -> & -> & _). done.
Qed.

Lemma counterInv_run a sched s s' :
  counterInv s → run a sched s = Some s' → counterInv s'.
Proof.
  revert s. induction sched as [|act sched IH]; intros s Hinv Hrun; simpl in *.
  - by injection Hrun as <-.
  - destruct (step a act s) as [s1|] eqn:Hstep; [|done].
    apply (IH s1); [|done]. by eapply counterInv_step.
Qed.

(** A task that has not finished can take a step, or else it waits for room
    in the result channel and the counting goroutine can take one. *)
Lemma live_task_or_counter_steps a s i t :
  Inv a s → closed s = false → running (counter s) = true →
  slotPending (pc s) = 0%nat →
  tasks s !! i = Some t → tpc t ≠ TExit →
  ∃ act s', step a act s = Some s'.
Proof.
  intros [Hsem _ Hwg _ _] Hcl Hrun Hpend Hi Hlive.
  pose proof (sum_list_with_lookup slots _ _ _ Hi) as Hslot.
  pose proof (sum_list_with_lookup alive _ _ _ Hi) as Halive.
  unfold inFlight in Hsem. unfold slots, alive, holdsSlot in *.
  destruct (tpc t) as [client apps|err|e| | |] eqn:Htpc; try done.
  - exists (ATask i true). simpl. unfold task_step. rewrite Hi, Htpc.
    destruct (insertAppsInstalled _ _ _ _). eauto.
  - destruct (decide (length (resultChan s) < resultCap)%nat) as [Hroom|Hfull].
    + exists (ATask i true). simpl. unfold task_step.
      rewrite Hi, Htpc, decide_True by done. eauto.
    + exists ACounter. simpl. unfold counter_step.
      destruct (counter s); try done; eauto.
      * destruct (resultChan s); [unfold resultCap in Hfull; simpl in *; lia|].
        eauto.
      * destruct ok; eauto.
  - exists (ATask i true). simpl. unfold task_step. rewrite Hi, Htpc. eauto.
  - exists (ATask i true). simpl. unfold task_step. rewrite Hi, Htpc.
    destruct (semaphore s); [lia|]. eauto.
  - exists (ATask i true). simpl. unfold task_step. rewrite Hi, Htpc.
    destruct (wg s); [lia|]. eauto.
Qed.

(** X9: The goroutines of [processFile] never deadlock: in every state a call
    can reach, under whatever schedule, as long as the call has not returned
    some goroutine can take a step (the semaphore has room for at least one
    task). *)
Theorem processFile_never_deadlocks a sched w lg s :
  (0 < semCap a)%nat →
  run a sched (enter w lg 0) = Some s →
  pc s ≠ MReturn →
  ∃ act s', step a act s = Some s'.
Proof.
  intros Hcap Hrun Hpc.
  pose proof (Inv_run _ _ _ _ (Inv_enter a w lg) Hrun) as Hinv.
  assert (Hc : counterInv s).
  { eapply counterInv_run; [|done]. by unfold counterInv. }
  unfold counterInv in Hc.
  destruct (pc s) eqn:Epc; try done;
    try (exists AMain; simpl; unfold main_step; rewrite Epc;
         repeat case_match; eauto; fail).
  - (* at the acquire *)
    destruct (decide (semaphore s < semCap a)%nat) as [Hroom|Hfull].
    { exists AMain. simpl. unfold main_step.
      rewrite Epc, decide_True by done. eauto. }
    destruct (Hc eq_refl) as [Hcl Hr].
    pose proof (inv_sem _ _ Hinv) as Hsem. rewrite Epc in Hsem. simpl in Hsem.
    destruct (sum_list_with_pos slots (tasks s)) as (i & t & Hi & Ht).
    { unfold inFlight in Hsem. lia. }
    apply (live_task_or_counter_steps a s i t); try done.
    + by rewrite Epc.
    + unfold slots, holdsSlot in Ht. destruct (tpc t); try done; lia.
  - (* at the wait *)
    destruct (decide (wg s = 0%nat)) as [Hz|Hnz].
    { exists AMain. simpl. unfold main_step.
      rewrite Epc, decide_True by done. eauto. }
    destruct (Hc eq_refl) as [Hcl Hr].
    pose proof (inv_wg _ _ Hinv) as Hwg. rewrite Epc in Hwg. simpl in Hwg.
    destruct (sum_list_with_pos alive (tasks s)) as (i & t & Hi & Ht).
    { lia. }
    apply (live_task_or_counter_steps a s i t); try done.
    + by rewrite Epc.
    + unfold alive in Ht. destruct (tpc t); try done; lia.
Qed.

End Progress.

(** * Further properties of the sort and of [main] *)

Section SortMore.
Local Open Scope nat_scope.
Implicit Types l : list fileInfo.

Lemma foldl_fixed {A B} (f : A → B → A) (x : A) (js : list B) :
  Forall (λ j, f x j = x) js → foldl f x js = x.
Proof. induction 1 as [|j js Hj _ IH]; simpl; [done|]. by rewrite Hj. Qed.

Lemma sortBody_ascending l i j : ascending l → i < j → sortBody i l j = l.
Proof.
  intros Hasc Hij. unfold sortBody.
  destruct (l !! i) as [x|] eqn:Hx; [|done].
  destruct (l !! j) as [y|] eqn:Hy; [|done].
  specialize (Hasc i j x y Hij Hx Hy). unfold After.
  by destruct (Z.ltb_spec (fiModTime y) (fiModTime x)); [lia|].
Qed.

(** X10: Files already in ascending order of modification time (equal times
    included) keep the order in which they were found: the sort never swaps two
    of them. *)
Theorem sortFileInfos_keeps_sorted_input l :
  ascending l → sortFileInfos l = l.
Proof.
  intros Hasc. unfold sortFileInfos. apply foldl_fixed.
  apply Forall_forall. intros i _. unfold sortInner. apply foldl_fixed.
  apply Forall_forall. intros j Hj%elem_of_seq.
  apply sortBody_ascending; [done|lia].
Qed.

Local Instance earlier_antisymm : AntiSymm (=) earlier.
Proof. unfold earlier. intros x y ??. lia. Qed.

Lemma ascending_cons x l :
  ascending (x :: l) →
  ascending l ∧ Forall (λ y, (fiModTime x ≤ fiModTime y)%Z) l.
Proof.
  intros Hasc. split.
  - intros a b xa yb Hab Ha Hb. apply (Hasc (S a) (S b)); [lia|done|done].
  - apply Forall_forall. intros y Hy.
    apply list_elem_of_lookup in Hy as [k Hk].
    apply (Hasc 0 (S k)); [lia|done|done].
Qed.

Lemma ascending_distinct_StronglySorted l :
  ascending l → NoDup (fiModTime <$> l) → StronglySorted earlier l.
Proof.
  induction l as [|x l IH]; intros Hasc Hnd; [constructor|].
  rewrite fmap_cons in Hnd. apply NoDup_cons in Hnd as [Hx Hnd].
  apply ascending_cons in Hasc as [Hasc Hle].
  constructor; [by apply IH|].
  rewrite Forall_forall in Hle. apply Forall_forall. intros y Hy.
  specialize (Hle y Hy). unfold earlier.
  assert (fiModTime x ≠ fiModTime y); [|lia].
  intros Heq. apply Hx. rewrite Heq. by apply list_elem_of_fmap_2.
Qed.

(** X11: When no two files have the same modification time, the order in which
    they are processed does not depend on the order in which they were found. *)
Theorem sortFileInfos_order_of_discovery_irrelevant l l' :
  l ≡ₚ l' → NoDup (fiModTime <$> l) →
  sortFileInfos l = sortFileInfos l'.
Proof.
  intros Hperm Hnd.
  apply (StronglySorted_unique earlier).
  - apply ascending_distinct_StronglySorted; [apply sortFileInfos_ascending|].
    by rewrite sortFileInfos_Permutation.
  - apply ascending_distinct_StronglySorted; [apply sortFileInfos_ascending|].
    by rewrite sortFileInfos_Permutation, <- Hperm.
  - by rewrite !sortFileInfos_Permutation.
Qed.

End SortMore.

Section MainMore.
Context `{Extern}.

Lemma statFiles_paths w globbed :
  path <$> fst (statFiles w globbed [] [])
  = filter (λ f, is_Some (os_Stat w f)) globbed.
Proof.
  rewrite statFiles_spec. simpl.
  induction globbed as [|f rest IH]; [done|]. simpl.
  destruct (os_Stat w f) as [t|] eqn:Hf; simpl.
  - rewrite filter_cons_True by (by rewrite Hf). f_equal. exact IH.
  - rewrite filter_cons_False; [exact IH|]. rewrite Hf. by intros [??].
Qed.

(** X12: When [main] ends, it has processed exactly the files found by the glob
    whose [os.Stat] succeeded, each as often as it was found; a file whose stat
    failed is never processed. Its log opens with the start message, followed by
    one entry per failed stat in the order of the glob, and closes with the end
    message. *)
Theorem main_processes_the_statable_files c globbed scheds w w' lg' :
  main c globbed scheds w = Some (w', lg') →
  started lg' ≡ₚ filter (λ f, is_Some (os_Stat w f)) globbed
  ∧ (∀ f, os_Stat w f = None → f ∉ started lg')
  ∧ (∃ mid, lg' = [LogStarted (Pattern c) (Dry c)]
                  ++ (LogStatError <$> filter (λ f, os_Stat w f = None) globbed)
                  ++ mid ++ [LogFinished]).
Proof.
  unfold main. intros Hm.
  destruct (processAll _ _ _ _ _ _) as [[w1 lg1]|] eqn:Hp; [|done].
  injection Hm as _ <-.
  assert (Hst : started (lg1 ++ [LogFinished])
                ≡ₚ filter (λ f, is_Some (os_Stat w f)) globbed).
  { rewrite started_app, (processAll_started _ _ _ _ _ _ _ _ Hp).
    rewrite started_app, statFiles_not_started. simpl. rewrite app_nil_r.
    unfold processingOrder. rewrite sortFileInfos_Permutation.
    by rewrite statFiles_paths. }
  split; [done|]. split.
  - intros f Hf Hin. rewrite Hst in Hin.
    apply list_elem_of_filter in Hin as [Hs _]. rewrite Hf in Hs.
    by destruct Hs.
  - assert (Hext : ∀ infos scheds0 w0 lg0 sem w2 lg2,
      processAll c infos scheds0 w0 lg0 sem = Some (w2, lg2) →
      ∃ more, lg2 = lg0 ++ more).
    { clear. induction infos as [|fi rest IH]; intros scheds0 w0 lg0 sem w2 lg2 Hp;
        simpl in Hp.
      - injection Hp as _ <-. exists []. by rewrite app_nil_r.
      - destruct scheds0 as [|sched scheds']; [done|].
        destruct (processFile _ sched w0 lg0 sem) as [s|] eqn:Hf; [|done].
        destruct (IH _ _ _ _ _ _ Hp) as [more ->].
        assert (∃ m, logs s = lg0 ++ m) as [m ->].
        { unfold processFile in Hf.
          destruct (run _ sched (enter w0 lg0 sem)) as [s1|] eqn:Hrun; [|done].
          assert (s1 = s) as -> by (by destruct (pc s1); simplify_eq).
          clear Hf.
          assert (Hg : ∀ s0, run (argsFor c (path fi)) sched s0 = Some s →
                             ∃ m, logs s = logs s0 ++ m).
          { clear. induction sched as [|act sched IHs]; intros s0 Hr; simpl in Hr.
            - injection Hr as <-. exists []. by rewrite app_nil_r.
            - destruct (step _ act s0) as [s1|] eqn:Hstep; [|done].
              destruct (IHs _ Hr) as [m ->].
              assert (∃ m1, logs s1 = logs s0 ++ m1) as [m1 ->].
              { destruct act as [| |i setOk]; simpl in Hstep.
                - unfold main_step in Hstep.
                  cases_of Hstep; simplify_eq; simpl;
                    rewrite <- ?app_assoc; eauto;
                    exists []; by rewrite app_nil_r.
                - destruct (counter_step_frame _ _ Hstep) as (_ & -> & _).
                  exists []. by rewrite app_nil_r.
                - unfold task_step, insertAppsInstalled in Hstep.
                  cases_of Hstep; simplify_eq; simpl; eauto. }
              exists (m1 ++ m). by rewrite app_assoc. }
          apply (Hg _ Hrun). }
        exists (m ++ more). by rewrite app_assoc. }
    destruct (Hext _ _ _ _ _ _ _ Hp) as [more ->].
    exists more. rewrite statFiles_spec. simpl. rewrite <- !app_assoc.
    do 2 f_equal. clear.
    induction globbed as [|f rest IH]; [done|]. simpl.
    destruct (os_Stat w f) as [t|] eqn:Hf.
    + rewrite filter_cons_False by (by rewrite Hf). exact IH.
    + rewrite filter_cons_True by done. simpl. f_equal. exact IH.
Qed.

End MainMore.

(** * An execution of [processFile] with exact counts *)

Lemma wrap64_small z : - 2 ^ 63 ≤ z < 2 ^ 63 → wrap64 z = z.
Proof. intros Hz. unfold wrap64. rewrite Z.mod_small; lia. Qed.

Section Sequential.
Context `{Extern}.

Lemma run_cons_Some a act rest s s1 :
  step a act s = Some s1 → run a (act :: rest) s = run a rest s1.
Proof. intros Hs. simpl. by rewrite Hs. Qed.

Lemma run_app a l1 l2 s :
  run a (l1 ++ l2) s = match run a l1 s with Some s1 => run a l2 s1 | None => None end.
Proof.
  revert s. induction l1 as [|act l1 IH]; intros s; simpl; [done|].
  destruct (step a act s); [apply IH|done].
Qed.

Lemma new_task_lookup (ts : list Task) t : (ts ++ [t]) !! length ts = Some t.
Proof. by apply list_lookup_middle. Qed.

Lemma new_task_insert (ts : list Task) t t' :
  <[length ts := t']> (ts ++ [t]) = ts ++ [t'].
Proof. rewrite insert_app_r_alt by done. by rewrite Nat.sub_diag. Qed.

Lemma run_line a setOk s text rest :
  (0 < semCap a)%nat →
  betweenLines s → scanner s = text :: rest →
  ∃ s', run a (lineRun a setOk (length (tasks s)) text) s = Some s'
    ∧ betweenLines s' ∧ scanner s' = rest
    ∧ world s' = world s ∧ scanErr s' = scanErr s ∧ closed s' = closed s
    ∧ tasks s' = tasks s ++ replicate (dispatches a text)
                                 {| tpc := TExit; released := 1 |}
    ∧ processed s' = match lineOutcome a setOk text with
                     | Some true => wrap64 (processed s + 1)
                     | _ => processed s
                     end
    ∧ errors s' = match lineOutcome a setOk text with
                  | Some false => wrap64 (errors s + 1)
                  | _ => errors s
                  end
    ∧ ∃ more, logs s' = logs s ++ more.
Proof.
  intros Hcap (Hpc & Hch & Hcn & Hwg & Hsem) Hsc.
  unfold lineRun, lineOutcome, dispatches, fate, betweenLines.
  destruct s as [w lgs sc se p wgv sem ch cl cn pr er ts]. fields. subst.
  destruct (decide (TrimSpace text = "")) as [Hb|Hne].
  { erewrite run_cons_Some;
      [|simpl; unfold main_step; simpl; rewrite decide_True by done;
        norm; reflexivity].
    eexists. split; [reflexivity|]. simpl. rewrite !app_nil_r.
    repeat split; try done. exists []. by rewrite app_nil_r. }
  destruct (parseAppsInstalled (TrimSpace text)) as [[e|apps] lg] eqn:Hparse.
  { erewrite run_cons_Some;
      [|simpl; unfold main_step; simpl; rewrite decide_False by done;
        rewrite Hparse; norm; reflexivity].
    erewrite run_cons_Some; [|simpl; unfold main_step; norm; reflexivity].
    eexists. split; [reflexivity|]. simpl. rewrite ?app_nil_r.
    repeat split; try done. eexists. by rewrite <- ?app_assoc. }
  destruct (deviceMemc a !! DevType apps) as [client|] eqn:Hroute.
  2:{ erewrite run_cons_Some;
      [|simpl; unfold main_step; simpl; rewrite decide_False by done;
        rewrite Hparse, Hroute; norm; reflexivity].
    erewrite run_cons_Some; [|simpl; unfold main_step; norm; reflexivity].
    eexists. split; [reflexivity|]. simpl. rewrite ?app_nil_r.
    repeat split; try done. eexists. by rewrite <- ?app_assoc. }
  destruct (insertAppsInstalled client apps (dry a) setOk) as [err ilg] eqn:Hins.
  cbn [fst snd]. unfold taskRun.
  destruct err as [e|]; cbn [app].
  - erewrite run_cons_Some;
      [|simpl; unfold main_step; simpl; rewrite decide_False by done;
        rewrite Hparse, Hroute; norm; reflexivity].
    erewrite run_cons_Some;
      [|simpl; unfold main_step; simpl; rewrite decide_True by done;
        norm; reflexivity].
    erewrite run_cons_Some; [|simpl; unfold main_step; norm; reflexivity].
    erewrite run_cons_Some;
      [|simpl; unfold task_step; simpl; rewrite new_task_lookup; simpl;
        rewrite Hins; norm; rewrite new_task_insert; reflexivity].
    erewrite run_cons_Some;
      [|simpl; unfold task_step; simpl; rewrite new_task_lookup; simpl;
        try rewrite decide_True by (unfold resultCap; simpl; lia);
        norm; rewrite new_task_insert; reflexivity].
    erewrite run_cons_Some;
      [|simpl; unfold task_step; simpl; rewrite new_task_lookup;
        norm; rewrite new_task_insert; reflexivity].
    erewrite run_cons_Some;
      [|simpl; unfold task_step; simpl; rewrite new_task_lookup;
        norm; rewrite new_task_insert; reflexivity].
    erewrite run_cons_Some;
      [|simpl; unfold task_step; simpl; rewrite new_task_lookup;
        norm; rewrite new_task_insert; reflexivity].
    erewrite run_cons_Some; [|simpl; unfold counter_step; norm; reflexivity].
    erewrite run_cons_Some; [|simpl; unfold counter_step; norm; reflexivity].
    erewrite run_cons_Some; [|simpl; unfold counter_step; norm; reflexivity].
    eexists. split; [reflexivity|]. simpl.
    repeat split; try done. eexists. by rewrite <- ?app_assoc.
  - erewrite run_cons_Some;
      [|simpl; unfold main_step; simpl; rewrite decide_False by done;
        rewrite Hparse, Hroute; norm; reflexivity].
    erewrite run_cons_Some;
      [|simpl; unfold main_step; simpl; rewrite decide_True by done;
        norm; reflexivity].
    erewrite run_cons_Some; [|simpl; unfold main_step; norm; reflexivity].
    erewrite run_cons_Some;
      [|simpl; unfold task_step; simpl; rewrite new_task_lookup; simpl;
        rewrite Hins; norm; rewrite new_task_insert; reflexivity].
    erewrite run_cons_Some;
      [|simpl; unfold task_step; simpl; rewrite new_task_lookup; simpl;
        try rewrite decide_True by (unfold resultCap; simpl; lia);
        norm; rewrite new_task_insert; reflexivity].
    erewrite run_cons_Some;
      [|simpl; unfold task_step; simpl; rewrite new_task_lookup;
        norm; rewrite new_task_insert; reflexivity].
    erewrite run_cons_Some;
      [|simpl; unfold task_step; simpl; rewrite new_task_lookup;
        norm; rewrite new_task_insert; reflexivity].
    erewrite run_cons_Some; [|simpl; unfold counter_step; norm; reflexivity].
    erewrite run_cons_Some; [|simpl; unfold counter_step; norm; reflexivity].
    erewrite run_cons_Some; [|simpl; unfold counter_step; norm; reflexivity].
    eexists. split; [reflexivity|]. simpl.
    repeat split; try done. eexists. by rewrite <- ?app_assoc.
Qed.


Lemma tally_bounds a net k lines :
  0 ≤ fst (tally a net k lines) ∧ 0 ≤ snd (tally a net k lines)
  ∧ fst (tally a net k lines) + snd (tally a net k lines)
    = Z.of_nat (length (filter (λ text, TrimSpace text ≠ "") lines)).
Proof.
  revert k. induction lines as [|text rest IH]; intros k; simpl; [done|].
  specialize (IH (k + dispatches a text)%nat).
  destruct (tally a net (k + dispatches a text) rest) as [p e]. simpl in IH.
  unfold lineOutcome, fate.
  destruct (decide (TrimSpace text = "")) as [Hb|Hne].
  { rewrite filter_cons_False by (by intros ?). done. }
  rewrite filter_cons_True by done. simpl length.
  destruct (parseAppsInstalled (TrimSpace text)) as [[?|apps] lg]; [simpl; lia|].
  destruct (deviceMemc a !! DevType apps); [|simpl; lia].
  destruct (bool_decide _); simpl; lia.
Qed.

Lemma run_lines a net lines :
  (0 < semCap a)%nat →
  ∀ s, betweenLines s → scanner s = lines →
  0 ≤ processed s → 0 ≤ errors s →
  processed s + errors s + Z.of_nat (length lines) < 2 ^ 63 →
  ∃ s', run a (fileRun a net (length (tasks s)) lines) s = Some s'
    ∧ betweenLines s' ∧ scanner s' = []
    ∧ world s' = world s ∧ scanErr s' = scanErr s ∧ closed s' = closed s
    ∧ processed s' = processed s + fst (tally a net (length (tasks s)) lines)
    ∧ errors s' = errors s + snd (tally a net (length (tasks s)) lines)
    ∧ (∃ n, tasks s' = tasks s ++ replicate n {| tpc := TExit; released := 1 |})
    ∧ ∃ more, logs s' = logs s ++ more.
Proof.
  intros Hcap. induction lines as [|text rest IH]; intros s Hb Hsc Hp He Hlt.
  { exists s. simpl. rewrite !Z.add_0_r. repeat (split; [done|]).
    split; [exists 0%nat|exists []]; by rewrite app_nil_r. }
  simpl fileRun. rewrite run_app.
  destruct (run_line a (net (length (tasks s))) s text rest Hcap Hb Hsc)
    as (s1 & -> & Hb1 & Hsc1 & Hw1 & Hse1 & Hcl1 & Ht1 & Hp1 & He1 & m1 & Hl1).
  assert (Hlen1 : length (tasks s1)
                  = (length (tasks s) + dispatches a text)%nat)
    by (by rewrite Ht1, length_app, length_replicate).
  simpl length in Hlt.
  assert (Hcount : 0 ≤ processed s1 ∧ 0 ≤ errors s1
                   ∧ processed s1 + errors s1 + Z.of_nat (length rest) < 2 ^ 63
                   ∧ processed s1 = processed s
                       + match lineOutcome a (net (length (tasks s))) text with
                         | Some true => 1 | _ => 0 end
                   ∧ errors s1 = errors s
                       + match lineOutcome a (net (length (tasks s))) text with
                         | Some false => 1 | _ => 0 end).
  { rewrite Hp1, He1.
    destruct (lineOutcome a (net (length (tasks s))) text) as [[]|];
      rewrite ?wrap64_small by lia; lia. }
  destruct Hcount as (Hp1' & He1' & Hlt1 & Hpe & Hee).
  destruct (IH s1 Hb1 Hsc1 Hp1' He1' Hlt1)
    as (s2 & Hrun & Hb2 & Hsc2 & Hw2 & Hse2 & Hcl2 & Hp2 & He2 & [n2 Ht2]
        & m2 & Hl2).
  rewrite Hlen1 in Hrun, Hp2, He2.
  exists s2. split; [done|]. split; [done|]. split; [done|].
  split; [congruence|]. split; [congruence|]. split; [congruence|].
  simpl tally.
  destruct (tally a net (length (tasks s) + dispatches a text) rest) as [p e].
  simpl in Hp2, He2.
  split; [|split; [|split]].
  - rewrite Hp2, Hpe.
    destruct (lineOutcome a (net (length (tasks s))) text) as [[]|]; simpl; lia.
  - rewrite He2, Hee.
    destruct (lineOutcome a (net (length (tasks s))) text) as [[]|]; simpl; lia.
  - exists (dispatches a text + n2)%nat.
    by rewrite Ht2, Ht1, replicate_add, app_assoc.
  - exists (m1 ++ m2). by rewrite Hl2, Hl1, app_assoc.
Qed.

Lemma run_close a s :
  betweenLines s → scanner s = [] →
  ∃ s', run a (closeRun (processed s)) s = Some s'
    ∧ pc s' = MReturn ∧ counter s' = CExit ∧ closed s' = true
    ∧ resultChan s' = [] ∧ wg s' = 0%nat ∧ semaphore s' = 0%nat
    ∧ processed s' = processed s ∧ errors s' = errors s
    ∧ tasks s' = tasks s
    ∧ world s' = fst (dotRename (world s) (filename a))
    ∧ logs s' = logs s
        ++ (if scanErr s then [LogReadError (filename a)] else [])
        ++ (if decide (processed s = 0) then []
            else [evaluate (errors s) (processed s)]).
Proof.
  intros (Hpc & Hch & Hcn & Hwg & Hsem) Hsc. unfold closeRun.
  destruct s as [w lgs sc se p wgv sem ch cl cn pr er ts]. fields. subst.
  cbn [app].
  erewrite run_cons_Some; [|simpl; unfold main_step; norm; reflexivity].
  erewrite run_cons_Some; [|simpl; unfold main_step; norm; reflexivity].
  erewrite run_cons_Some; [|simpl; unfold main_step; norm; reflexivity].
  erewrite run_cons_Some; [|simpl; unfold counter_step; norm; reflexivity].
  erewrite run_cons_Some; [|simpl; unfold main_step; norm; reflexivity].
  erewrite run_cons_Some; [|simpl; unfold main_step; norm; reflexivity].
  destruct (decide (pr = 0)) as [Hz|Hnz]; cbn [app].
  - erewrite run_cons_Some;
      [|simpl; unfold main_step; simpl; rewrite decide_True by done;
        norm; reflexivity].
    erewrite run_cons_Some; [|simpl; unfold main_step; norm; reflexivity].
    eexists. split; [reflexivity|]. simpl. rewrite !app_nil_r.
    by repeat split.
  - erewrite run_cons_Some;
      [|simpl; unfold main_step; simpl; rewrite decide_False by done;
        norm; reflexivity].
    erewrite run_cons_Some; [|simpl; unfold main_step; norm; reflexivity].
    erewrite run_cons_Some; [|simpl; unfold main_step; norm; reflexivity].
    eexists. split; [reflexivity|]. simpl. rewrite !app_nil_r, <- !app_assoc.
    by repeat split.
Qed.

(** X13: Every file that opens has an execution in which [processFile] returns
    with exact counts: under the schedule that lets each task finish and its
    outcome be counted before the next line is scanned, and lets the counting
    goroutine leave its loop before the counts are read, [processed] is the
    number of lines written (or, in a dry run, serialized) and [errors] the
    number of lines that failed to parse, to route or to be written; every line
    that is not blank is counted once; the verdict is the last entry of the log
    when a line was processed, and the file is renamed: unless the system
    refuses the rename, the file is found under its dotted name afterwards and
    no longer under its own; when the rename is refused the file system is
    left as it was. *)
Theorem processFile_sequential_run a net w lg f lines rerr :
  os_Open w (filename a) = Some f → body f = Gzip lines rerr →
  (0 < semCap a)%nat → Z.of_nat (length lines) < 2 ^ 63 →
  ∃ s, processFile a (sequentialRun a net lines) w lg 0 = Some s
    ∧ processed s = fst (tally a net 0 lines)
    ∧ errors s = snd (tally a net 0 lines)
    ∧ processed s + errors s
      = Z.of_nat (length (filter (λ text, TrimSpace text ≠ "") lines))
    ∧ counter s = CExit ∧ resultChan s = []
    ∧ Forall (λ t, tpc t = TExit) (tasks s)
    ∧ world s = fst (dotRename w (filename a))
    ∧ (filename a ∉ locked w →
       files (world s) !! dotPath (filename a) = Some f
       ∧ (dotPath (filename a) ≠ filename a →
          files (world s) !! filename a = None)
       ∧ ∀ q, q ≠ filename a → q ≠ dotPath (filename a) →
              files (world s) !! q = files w !! q)
    ∧ (filename a ∈ locked w → world s = w)
    ∧ ∃ mid, logs s = lg ++ [LogProcessing (filename a)] ++ mid
        ++ (if rerr then [LogReadError (filename a)] else [])
        ++ (if decide (fst (tally a net 0 lines) = 0) then []
            else [evaluate (snd (tally a net 0 lines))
                    (fst (tally a net 0 lines))]).
Proof.
  intros Hopen Hbody Hcap Hlen. unfold processFile, sequentialRun.
  erewrite run_cons_Some;
    [|simpl; unfold main_step; simpl; rewrite Hopen, Hbody; norm; reflexivity].
  rewrite run_app.
  match goal with |- context [run a (fileRun a net 0 lines) ?s0] =>
    destruct (run_lines a net lines Hcap s0) as
      (s1 & Hrun & Hb1 & Hsc1 & Hw1 & Hse1 & Hcl1 & Hp1 & He1 & [n Ht1]
       & m1 & Hl1);
      [by repeat split|done|done|done|simpl; lia|]
  end.
  simpl in Hrun, Hw1, Hse1, Hp1, He1, Ht1, Hl1. rewrite Hrun.
  pose proof (tally_bounds a net 0 lines) as (_ & _ & Htot).
  destruct (tally a net 0 lines) as [p e]. cbn [fst snd] in *.
  replace (closeRun p) with (closeRun (processed s1)) by (by rewrite Hp1).
  destruct (run_close a s1 Hb1 Hsc1)
    as (s2 & -> & Hpc2 & Hcn2 & Hcl2 & Hch2 & Hwg2 & Hsem2 & Hp2 & He2 & Ht2
        & Hw2 & Hl2).
  rewrite Hpc2. exists s2. split; [done|].
  assert (Hp1' : processed s1 = p) by lia.
  assert (He1' : errors s1 = e) by lia.
  split; [lia|]. split; [lia|]. split; [lia|].
  split; [done|]. split; [done|].
  split; [rewrite Ht2, Ht1; by apply Forall_replicate|].
  assert (Hw : world s2 = fst (dotRename w (filename a)))
    by (by rewrite Hw2, Hw1).
  assert (Hf : files w !! filename a = Some f).
  { unfold os_Open in Hopen.
    destruct (files w !! filename a) as [f0|]; [|done].
    destruct (readable f0); by simplify_eq. }
  split; [done|]. split; [|split].
  - intros Hl. rewrite Hw.
    by destruct (dotRename_moves _ _ _ Hf Hl) as (_ & ? & ? & ?).
  - intros Hl. by rewrite Hw, dotRename_refused.
  - exists m1. rewrite Hl2, Hl1, Hse1, Hp1', He1'. by rewrite <- !app_assoc.
Qed.


End Sequential.

(** * Termination of [processFile] *)

Section Termination.
Context `{Extern}.
Local Open Scope nat_scope.

Lemma potential_step a act s s' :
  step a act s = Some s' → potential a s' < potential a s.
Proof.
  unfold potential. intros Hs. destruct act as [| |i setOk]; simpl in Hs.
  - unfold main_step in Hs. unfold mainPot, linesOf.
    destruct (pc s) eqn:Hpc; cbn -[Nat.mul] in *; cases_of Hs; simplify_eq;
      cbn -[Nat.mul]; rewrite ?Hpc, ?sum_list_with_app; cbn -[Nat.mul]; lia.
  - unfold counter_step in Hs. unfold mainPot.
    cases_of Hs; simplify_eq; cbn -[Nat.mul];
      repeat match goal with
             | Hq : resultChan s = _ |- _ => rewrite Hq
             end;
      cbn -[Nat.mul]; lia.
  - unfold task_step, insertAppsInstalled in Hs.
    destruct (tasks s !! i) as [t|] eqn:Hi; [|done].
    unfold mainPot.
    cases_of Hs;
      match type of Hs with
      | context [<[i := ?y]> (tasks s)] =>
          pose proof (sum_list_with_insert taskPot _ _ _ y Hi) as Hpot
      | _ => idtac
      end;
      simplify_eq; cbn -[Nat.mul]; rewrite ?length_app; cbn -[Nat.mul];
      unfold taskPot in *; cbn -[Nat.mul] in *;
      repeat match goal with Ht : tpc t = _ |- _ => rewrite Ht in Hpot end;
      lia.
Qed.

Lemma potential_run a sched s s' :
  run a sched s = Some s' → length sched + potential a s' ≤ potential a s.
Proof.
  revert s. induction sched as [|act sched IH]; intros s Hrun; simpl in *.
  - injection Hrun as <-. lia.
  - destruct (step a act s) as [s1|] eqn:Hstep; [|done].
    apply IH in Hrun. apply potential_step in Hstep. lia.
Qed.

(** X14: A call of [processFile] cannot run forever: whatever the schedule, its
    goroutines take at most [12 * n + 10] steps in all, for a file of [n] lines
    (and at most 10 for a file that does not open). *)
Theorem processFile_steps_bounded a sched w lg sem s :
  run a sched (enter w lg sem) = Some s →
  length sched ≤ 12 * length (linesOf w (filename a)) + 10.
Proof.
  intros Hrun. apply potential_run in Hrun.
  unfold potential at 2 in Hrun. unfold mainPot in Hrun. simpl in Hrun. lia.
Qed.

End Termination.

(** * The count of processed records *)

Lemma insertErrors_app lg1 lg2 :
  insertErrors (lg1 ++ lg2) = (insertErrors lg1 + insertErrors lg2)%nat.
Proof. apply sum_list_with_app. Qed.

Lemma trues_app ch1 ch2 : trues (ch1 ++ ch2) = (trues ch1 + trues ch2)%nat.
Proof. apply sum_list_with_app. Qed.

Lemma pastSend_le_length (ts : list Task) :
  (sum_list_with pastSend ts ≤ length ts)%nat.
Proof.
  induction ts as [|t ts IH]; simpl; [done|].
  unfold pastSend at 1. destruct (tpc t); lia.
Qed.

Section Counting.
Context `{Extern}.

Lemma parse_no_insertError line :
  insertErrors (snd (parseAppsInstalled line)) = 0%nat.
Proof.
  unfold parseAppsInstalled.
  repeat case_match; simplify_eq; try done.
  match goal with
  | Hp : parseApps _ _ _ _ = _ |- _ => rewrite parseApps_spec in Hp
  end.
  simplify_eq. simpl. by induction (diagnosedTokens _).
Qed.

Lemma CountInv_enter a w lg sem : CountInv a w lg sem (enter w lg sem).
Proof. split; simpl; try done. Qed.

Lemma CountInv_main_step a w0 lg0 sem0 s s' :
  Z.of_nat (length (linesOf w0 (filename a))) < 2 ^ 63 →
  CountInv a w0 lg0 sem0 s → main_step a s = Some s' →
  CountInv a w0 lg0 sem0 s'.
Proof.
  intros Hlen [Hopen Hcount Hstore Hbound Hclosed Hexit] Hs.
  unfold main_step in Hs.
  destruct (pc s) eqn:Hpc.
  { (* the open *)
    rewrite (Hopen eq_refl) in Hs. simpl in Hs. unfold linesOf in Hbound.
    clear Hcount Hbound.
    cases_of Hs; simplify_eq; split; simpl; try done;
      try (intros _; exists 0%nat; unfold insertErrors;
           rewrite ?sum_list_with_app; simpl; lia).
    all: intros _; unfold linesOf;
      repeat match goal with
             | Ho : os_Open _ _ = _ |- _ => rewrite Ho
             | Hb : body _ = _ |- _ => rewrite Hb
             end; simpl; lia. }
  all: specialize (Hcount ltac:(done)) as (k & Hk & Heq & Hmono);
    specialize (Hbound ltac:(done));
    simpl in Hbound; clear Hopen;
    simpl in Hs; cases_of Hs; simplify_eq;
    try match goal with
        | Hp : parseAppsInstalled ?line = (_, ?lg) |- _ =>
            pose proof (parse_no_insertError line) as Hn; rewrite Hp in Hn;
            simpl in Hn
        end;
    try match goal with
        | Hq : scanner _ = _ |- _ => rewrite Hq in Hbound; simpl in Hbound
        end;
    split; simpl; rewrite ?Hpc; simpl; try done;
    try (intros Hc; by destruct (Hexit Hc)); intros _;
    try match goal with
        | Hq : scanner _ = _ |- _ => rewrite Hq
        end;
    try exists k; rewrite ?insertErrors_app, ?length_app, ?sum_list_with_app;
    unfold evaluate; repeat case_match; simpl; try lia;
    try (split; [done|]; lia); simpl in *; lia.
Qed.

Lemma CountInv_counter_step a w0 lg0 sem0 s s' :
  Z.of_nat (length (linesOf w0 (filename a))) < 2 ^ 63 →
  CountInv a w0 lg0 sem0 s → counter_step s = Some s' →
  CountInv a w0 lg0 sem0 s'.
Proof.
  intros Hlen [Hopen Hcount Hstore Hbound Hclosed Hexit] Hs.
  assert (Hpc : pc s ≠ MOpen).
  { intros Hpc. rewrite (Hopen Hpc) in Hs. done. }
  specialize (Hcount Hpc) as (k & Hk & Heq & Hmono). specialize (Hbound Hpc).
  pose proof (pastSend_le_length (tasks s)) as Hpast.
  unfold counter_step in Hs.
  destruct (counter s) as [| |ok|ok v|] eqn:Hc; try done.
  - (* the receive *)
    destruct (resultChan s) as [|ok rest] eqn:Hch.
    + destruct (closed s) eqn:Hcl; [|done]. injection Hs as <-.
      split; simpl; rewrite ?Hch, ?Hc, ?Hcl; try done; auto.
      intros _. exists k. simpl in *. repeat split; lia.
    + injection Hs as <-.
      split; simpl; rewrite ?Hch, ?Hc; try done; auto.
      intros _. exists k.
      unfold trues in *. simpl in *. destruct ok; simpl; repeat split; lia.
  - (* the read *)
    injection Hs as <-. split; simpl; rewrite ?Hc; try done; auto.
    + intros _. exists k. destruct ok; simpl in *; repeat split; lia.
    + by intros v0 [= -> ->].
  - (* the write *)
    destruct ok; injection Hs as <-.
    + rewrite (Hstore v eq_refl), Hk. simpl in Heq.
      split; simpl; rewrite ?Hc; try done; auto. intros _. exists (S k).
      rewrite wrap64_small by lia. repeat split; lia.
    + split; simpl; rewrite ?Hc; try done; auto. intros _. exists k.
      simpl in *. repeat split; lia.
Qed.

Lemma task_step_counters a i setOk s s' :
  task_step a i setOk s = Some s' →
  processed s' = processed s ∧ errors s' = errors s.
Proof.
  unfold task_step, insertAppsInstalled. intros Hs.
  cases_of Hs; by simplify_eq.
Qed.

Lemma CountInv_task_step a w0 lg0 sem0 i setOk s s' :
  Inv a s → CountInv a w0 lg0 sem0 s → task_step a i setOk s = Some s' →
  CountInv a w0 lg0 sem0 s'.
Proof.
  intros Hinv [Hopen Hcount Hstore Hbound Hclosed Hexit] Hs.
  assert (Hpc : pc s ≠ MOpen).
  { intros Hpc. rewrite (Hopen Hpc) in Hs. done. }
  specialize (Hcount Hpc) as (k & Hk & Heq & Hmono). specialize (Hbound Hpc).
  destruct (task_step_frame _ _ _ _ _ Hs)
    as (Hpc' & _ & Hc' & Hcl' & Hsc' & Hlen').
  destruct (task_step_counters _ _ _ _ _ Hs) as [Hpr' _].
  unfold task_step, insertAppsInstalled in Hs.
  destruct (tasks s !! i) as [t|] eqn:Hi; [|done].
  assert (Hnoexit : tpc t ≠ TExit → counter s ≠ CExit).
  { intros Hlive Hc. destruct (Hexit Hc) as [_ Hcl].
    pose proof (inv_quiet _ _ Hinv (Hclosed Hcl)) as Hwg.
    pose proof (inv_wg _ _ Hinv) as Hsum.
    pose proof (sum_list_with_lookup alive _ _ _ Hi) as Hal.
    unfold alive in Hal at 1. destruct (tpc t); try done; lia. }
  split; rewrite ?Hpc', ?Hc', ?Hcl', ?Hsc', ?Hlen', ?Hpr'; try done.
  - intros _.
    cases_of Hs;
      match type of Hs with
      | context [<[i := ?y]> (tasks s)] =>
          pose proof (sum_list_with_insert atLog _ _ _ y Hi) as Hlog;
          pose proof (sum_list_with_insert pastSend _ _ _ y Hi) as Hpast
      | _ => idtac
      end;
      simplify_eq; exists k; simpl;
      rewrite ?insertErrors_app, ?trues_app; simpl;
      unfold atLog, pastSend in *;
      repeat match goal with Ht : tpc t = _ |- _ =>
               rewrite Ht in Hlog, Hpast end;
      simpl in *; repeat split; lia.
  - intros Hc. destruct (Hexit Hc) as [Hch Hcl].
    cases_of Hs; simplify_eq; simpl; try done;
      exfalso; apply Hnoexit; try done;
      match goal with Ht : tpc t = _ |- _ => by rewrite Ht end.
Qed.

Lemma CountInv_run a w0 lg0 sem0 sched s s' :
  Z.of_nat (length (linesOf w0 (filename a))) < 2 ^ 63 →
  Inv a s → CountInv a w0 lg0 sem0 s → run a sched s = Some s' →
  CountInv a w0 lg0 sem0 s'.
Proof.
  intros Hlen. revert s.
  induction sched as [|act sched IH]; intros s Hinv Hci Hrun; simpl in *.
  - by injection Hrun as <-.
  - destruct (step a act s) as [s1|] eqn:Hstep; [|done].
    apply (IH s1); [by eapply (Inv_run a [act]); [|simpl; rewrite Hstep]| |done].
    destruct act; simpl in Hstep.
    + by eapply CountInv_main_step.
    + by eapply CountInv_counter_step.
    + by eapply CountInv_task_step.
Qed.

(** X15: [processed] is exact whenever the counting goroutine has finished:
    under every schedule, if a call returns after the counting goroutine has
    left its loop, [processed] is the number of tasks the call started less the
    number of failed inserts it logged, that is the number of inserts that
    succeeded. No increment of [processed] is ever lost. *)
Theorem processed_exact_once_counted a sched w lg s :
  Z.of_nat (length (linesOf w (filename a))) < 2 ^ 63 →
  processFile a sched w lg 0 = Some s →
  counter s = CExit →
  processed s
  = Z.of_nat (length (tasks s))
    - Z.of_nat (insertErrors (logs s) - insertErrors lg).
Proof.
  intros Hlen Hp Hc. unfold processFile in Hp.
  destruct (run a sched (enter w lg 0)) as [s1|] eqn:Hrun; [|done].
  destruct (pc s1) eqn:Hpc; try done. injection Hp as ->.
  pose proof (Inv_run _ _ _ _ (Inv_enter a w lg) Hrun) as Hinv.
  pose proof (CountInv_run a w lg 0%nat sched _ _ Hlen (Inv_enter a w lg)
                (CountInv_enter a w lg 0%nat) Hrun)
    as [_ Hcount _ _ _ Hexit].
  destruct Hcount as (k & Hk & Heq & Hmono); [by rewrite Hpc|].
  destruct (Hexit Hc) as [Hch _]. rewrite Hch, Hc in Heq. simpl in Heq.
  pose proof (inv_quiet _ _ Hinv) as Hwg. rewrite Hpc in Hwg.
  specialize (Hwg eq_refl).
  pose proof (inv_wg _ _ Hinv) as Hsum. rewrite Hpc, Hwg in Hsum.
  simpl in Hsum.
  assert (Hal : sum_list_with alive (tasks s) = 0%nat) by lia.
  apply sum_list_with_zero in Hal.
  assert (Hlog : sum_list_with atLog (tasks s) = 0%nat
                 ∧ sum_list_with pastSend (tasks s) = length (tasks s)).
  { clear -Hal. induction Hal as [|t ts Ht _ IH]; [done|]. simpl.
    destruct IH as [-> ->]. unfold alive in Ht. unfold atLog, pastSend.
    destruct (tpc t); try done. }
  destruct Hlog as [Hlog Hpast]. rewrite Hlog, Hpast in Heq. lia.
Qed.

End Counting.

(** * White space around a line *)

Lemma trimLeft_clean_bounded n s :
  (length s ≤ n)%nat → leftClean (trimLeft s).
Proof.
  revert s. induction n as [|n IH]; intros s Hn.
  { destruct s; [done|simpl in Hn; lia]. }
  destruct s as [|c1 r1]; [done|]. simpl in *.
  destruct (asciiSpace c1) eqn:E1; [apply IH; lia|].
  destruct r1 as [|c2 r2]; [done|]. simpl in Hn.
  destruct (space2 c1 c2) eqn:E2; [apply IH; lia|].
  destruct r2 as [|c3 r3]; [done|]. simpl in Hn.
  destruct (space3 c1 c2 c3) eqn:E3; [apply IH; lia|]. done.
Qed.

Lemma trimLeft_fixed s : leftClean s → trimLeft s = s.
Proof.
  destruct s as [|c1 [|c2 [|c3 r3]]]; simpl; try done.
  - by intros [-> _].
  - by intros (-> & -> & _).
  - by intros (-> & -> & ->).
Qed.

Lemma leftClean_prefix s k : leftClean (s ++ k) → leftClean s.
Proof.
  destruct s as [|c1 [|c2 [|c3 r3]]]; simpl; try done; tauto.
Qed.

Lemma trimRightRev_clean_bounded n s :
  (length s ≤ n)%nat → rightCleanRev (trimRightRev s).
Proof.
  revert s. induction n as [|n IH]; intros s Hn.
  { destruct s; [done|simpl in Hn; lia]. }
  destruct s as [|c1 r1]; [done|]. simpl in *.
  destruct (asciiSpace c1) eqn:E1; [apply IH; lia|].
  destruct r1 as [|c2 r2]; [done|]. simpl in Hn.
  destruct (space2 c2 c1) eqn:E2; [apply IH; lia|].
  destruct r2 as [|c3 r3]; [done|]. simpl in Hn.
  destruct (space3 c3 c2 c1) eqn:E3; [apply IH; lia|]. done.
Qed.

Lemma trimRightRev_fixed s : rightCleanRev s → trimRightRev s = s.
Proof.
  destruct s as [|c1 [|c2 [|c3 r3]]]; simpl; try done.
  - by intros [-> _].
  - by intros (-> & -> & _).
  - by intros (-> & -> & ->).
Qed.

(** [strings.TrimSpace] leaves a trimmed string as it is. *)
Lemma TrimSpace_idempotent s : TrimSpace (TrimSpace s) = TrimSpace s.
Proof.
  unfold TrimSpace. rewrite list_ascii_of_string_of_list_ascii.
  set (x := trimLeft (list_ascii_of_string s)).
  assert (Hx : leftClean x) by (eapply trimLeft_clean_bounded; reflexivity).
  destruct (trimRightRev_suffix (rev x)) as [k Hk].
  assert (Hy : rev (trimRightRev (rev x)) ++ rev k = x).
  { rewrite <- rev_app_distr, <- Hk. apply rev_involutive. }
  rewrite trimLeft_fixed.
  - rewrite rev_involutive. rewrite trimRightRev_fixed; [done|].
    eapply trimRightRev_clean_bounded; reflexivity.
  - apply (leftClean_prefix _ (rev k)). by rewrite Hy.
Qed.

Section TrimmedLines.
Context `{Extern}.

(** X16: White space around a line does not matter to [parseAppsInstalled], and
    trimming the line before the call, as [processFile] does, changes nothing
    but the line quoted in the diagnostics: the record or error is the same and
    so is the number of diagnostics. *)
Theorem parse_ignores_surrounding_space line :
  fst (parseAppsInstalled (TrimSpace line)) = fst (parseAppsInstalled line)
  ∧ length (snd (parseAppsInstalled (TrimSpace line)))
    = length (snd (parseAppsInstalled line)).
Proof.
  unfold parseAppsInstalled. rewrite TrimSpace_idempotent.
  destruct (Split (TrimSpace line) (byte 9))
    as [|devType [|devID [|latStr [|lonStr [|rawApps more]]]]]; try done.
  destruct (decide (devType = "" ∨ devID = "")); [done|].
  destruct (ParseFloat latStr); [|done].
  destruct (ParseFloat lonStr); [|done].
  rewrite !parseApps_spec. simpl. by rewrite !length_fmap.
Qed.

End TrimmedLines.

(** * An upper bound on the counters *)

Lemma falses_app ch1 ch2 :
  falses (ch1 ++ ch2) = (falses ch1 + falses ch2)%nat.
Proof. apply sum_list_with_app. Qed.

Lemma nonBlank_app l1 l2 : nonBlank (l1 ++ l2) = (nonBlank l1 + nonBlank l2)%nat.
Proof. unfold nonBlank. by rewrite filter_app, length_app. Qed.

Lemma atLog_le_pastSend (ts : list Task) :
  (sum_list_with atLog ts ≤ sum_list_with pastSend ts)%nat.
Proof.
  induction ts as [|t ts IH]; simpl; [done|].
  unfold atLog at 1, pastSend at 1. destruct (tpc t); lia.
Qed.

Lemma nonBlank_snoc pre text :
  nonBlank (pre ++ [text])
  = (nonBlank pre + if decide (TrimSpace text = "") then 0 else 1)%nat.
Proof.
  rewrite nonBlank_app. f_equal. unfold nonBlank.
  destruct (decide (TrimSpace text = "")).
  - by rewrite filter_cons_False by (by intros ?).
  - by rewrite filter_cons_True.
Qed.

Section Failures.
Context `{Extern}.

(** What [CountInv] gives on the number of completed failures: with the
    failures still under way and the successes counted, it stays within the
    lines scanned. *)
Lemma failuresCounted_bound a w0 lg0 sem0 pre s :
  CountInv a w0 lg0 sem0 s → pc s ≠ MOpen →
  processed s + failuresCounted lg0 pre s
  + Z.of_nat (pendingErr (pc s)) + Z.of_nat (pendingFalse (counter s))
  ≤ Z.of_nat (nonBlank pre)
  ∧ 0 ≤ processed s.
Proof.
  intros [_ Hcount _ _ _ _] Hpc.
  destruct (Hcount Hpc) as (k & Hk & Heq & Hmono).
  pose proof (pastSend_le_length (tasks s)). unfold failuresCounted. lia.
Qed.

Lemma ErrInv_enter a w lg sem : ErrInv a w lg (enter w lg sem).
Proof. by intros Hpc. Qed.

Lemma ErrInv_main_step a w0 lg0 sem0 s s' :
  Z.of_nat (length (linesOf w0 (filename a))) < 2 ^ 63 →
  CountInv a w0 lg0 sem0 s → ErrInv a w0 lg0 s → main_step a s = Some s' →
  ErrInv a w0 lg0 s'.
Proof.
  intros Hlen Hci Hei Hs Hpc'.
  assert (pc s = MOpen ∨ pc s ≠ MOpen) as [Hpc|Hpc]
    by (destruct (pc s); (by left) || by right).
  { (* the open *)
    clear Hei. rewrite (ci_open _ _ _ _ _ Hci Hpc) in Hs.
    unfold main_step in Hs. simpl in Hs. exists [].
    unfold failuresCounted, linesOf.
    cases_of Hs; simplify_eq; simpl;
      repeat match goal with
             | Ho : os_Open _ _ = _ |- _ => rewrite Ho
             | Hb : body _ = _ |- _ => rewrite Hb
             end;
      rewrite ?insertErrors_app; simpl;
      (split; [done|]); (split; [lia|]); by split. }
  destruct (Hei Hpc) as (pre & Hlines & Herr & Hmain & Hcnt).
  destruct (failuresCounted_bound _ _ _ _ pre _ Hci Hpc) as [Hb Hp0].
  assert (Hnb : (nonBlank pre ≤ length (linesOf w0 (filename a)))%nat).
  { rewrite Hlines, length_app. unfold nonBlank.
    pose proof (length_filter (λ text, TrimSpace text ≠ "") pre). lia. }
  unfold main_step in Hs.
  destruct (pc s) eqn:Hpcs; try done.
  - (* the scan *)
    destruct (scanner s) as [|text rest] eqn:Hsc.
    { injection Hs as <-. exists pre. unfold failuresCounted in *.
      simpl in *. rewrite ?Hpcs in *. simpl in *.
      rewrite insertErrors_app. simpl. counted Hcnt. }
    simpl in Hs.
    pose proof (parse_no_insertError (TrimSpace text)) as Hn.
    pose proof (nonBlank_snoc pre text) as Hsn.
    destruct (decide (TrimSpace text = "")) as [Hblank|Hblank];
      cases_of Hs; simplify_eq; exists (pre ++ [text]); rewrite <- app_assoc;
      unfold failuresCounted in *; simpl in *; rewrite ?Hpcs in *; simpl in *;
      rewrite ?insertErrors_app, ?Hn; counted Hcnt.
  - (* the write of [errors] by the scanning goroutine *)
    injection Hs as <-. exists pre. specialize (Hmain _ _ eq_refl).
    unfold failuresCounted in *. simpl in *. rewrite ?Hpcs in *. simpl in *.
    rewrite insertErrors_app.
    assert (insertErrors
              match unknown with
              | Some devType => [LogUnknownDevice devType]
              | None => []
              end = 0%nat) as -> by by destruct unknown.
    rewrite wrap64_small by lia. counted Hcnt.
  - (* the semaphore *)
    cases_of Hs; simplify_eq. exists pre.
    unfold failuresCounted in *. simpl in *. rewrite ?Hpcs in *. simpl in *.
    rewrite insertErrors_app. simpl. counted Hcnt.
  - (* the start of the task *)
    injection Hs as <-. exists pre.
    unfold failuresCounted in *. simpl in *. rewrite ?Hpcs in *. simpl in *.
    rewrite !insertErrors_app, length_app, sum_list_with_app. simpl.
    counted Hcnt.
  - cases_of Hs; simplify_eq. exists pre.
    unfold failuresCounted in *. simpl in *. rewrite ?Hpcs in *. simpl in *.
    rewrite insertErrors_app. simpl. counted Hcnt.
  - injection Hs as <-. exists pre.
    unfold failuresCounted in *. simpl in *. rewrite ?Hpcs in *. simpl in *.
    rewrite insertErrors_app. simpl. counted Hcnt.
  - injection Hs as <-. exists pre.
    unfold failuresCounted in *. simpl in *. rewrite ?Hpcs in *. simpl in *.
    rewrite insertErrors_app. simpl. counted Hcnt.
  - injection Hs as <-. exists pre.
    unfold failuresCounted in *. simpl in *. rewrite ?Hpcs in *. simpl in *.
    rewrite insertErrors_app.
    assert (insertErrors (if scanErr s then [LogReadError (filename a)] else [])
            = 0%nat) as -> by by destruct (scanErr s).
    counted Hcnt.
  - cases_of Hs; simplify_eq; exists pre;
      unfold failuresCounted in *; simpl in *; rewrite ?Hpcs in *; simpl in *;
      rewrite insertErrors_app; simpl; counted Hcnt.
  - injection Hs as <-. exists pre.
    unfold failuresCounted in *. simpl in *. rewrite ?Hpcs in *. simpl in *.
    rewrite insertErrors_app.
    assert (insertErrors [evaluate (errors s) (processed s)] = 0%nat) as ->
      by (unfold evaluate; by case_match).
    counted Hcnt.
  - injection Hs as <-. exists pre.
    unfold failuresCounted in *. simpl in *. rewrite ?Hpcs in *. simpl in *.
    rewrite insertErrors_app. simpl. counted Hcnt.
Qed.

Lemma ErrInv_counter_step a w0 lg0 sem0 s s' :
  Z.of_nat (length (linesOf w0 (filename a))) < 2 ^ 63 →
  CountInv a w0 lg0 sem0 s → ErrInv a w0 lg0 s → counter_step s = Some s' →
  ErrInv a w0 lg0 s'.
Proof.
  intros Hlen Hci Hei Hs _.
  assert (Hpc : pc s ≠ MOpen).
  { intros Hpc. rewrite (ci_open _ _ _ _ _ Hci Hpc) in Hs. done. }
  destruct (Hei Hpc) as (pre & Hlines & Herr & Hmain & Hcnt).
  destruct (failuresCounted_bound _ _ _ _ pre _ Hci Hpc) as [Hb Hp0].
  assert (Hnb : (nonBlank pre ≤ length (linesOf w0 (filename a)))%nat).
  { rewrite Hlines, length_app. unfold nonBlank.
    pose proof (length_filter (λ text, TrimSpace text ≠ "") pre). lia. }
  exists pre. unfold counter_step in Hs.
  destruct (counter s) as [| |ok|ok v|] eqn:Hc; try done.
  - (* the receive *)
    destruct (resultChan s) as [|ok rest] eqn:Hch.
    + destruct (closed s); [|done]. injection Hs as <-.
      unfold failuresCounted in *. simpl in *. rewrite ?Hch, ?Hc in *.
      simpl in *. split; [done|]. split; [lia|]. split; [|done].
      intros v u Hv. specialize (Hmain v u Hv). lia.
    + injection Hs as <-.
      unfold failuresCounted, falses in *. simpl in *. rewrite ?Hch, ?Hc in *.
      simpl in *. split; [done|]. destruct ok; simpl in *.
      all: split; [lia|]; split; [|done].
      all: intros v u Hv; specialize (Hmain v u Hv); lia.
  - (* the read *)
    injection Hs as <-.
    unfold failuresCounted in *. simpl in *. rewrite ?Hc in *.
    split; [done|]. destruct ok; simpl in *.
    all: split; [lia|]; split;
      [intros v u Hv; specialize (Hmain v u Hv); lia|].
    + done.
    + intros v [= <-]. lia.
  - (* the write *)
    destruct ok; injection Hs as <-.
    + unfold failuresCounted in *. simpl in *. rewrite ?Hc in *. simpl in *.
      split; [done|]. split; [lia|]. split; [|done].
      intros v0 u Hv. specialize (Hmain v0 u Hv). lia.
    + specialize (Hcnt v eq_refl).
      unfold failuresCounted in *. simpl in *. rewrite ?Hc in *. simpl in *.
      rewrite wrap64_small by lia.
      split; [done|]. split; [lia|]. split; [|done].
      intros v0 u Hv. specialize (Hmain v0 u Hv). lia.
Qed.

Lemma ErrInv_task_step a w0 lg0 sem0 i setOk s s' :
  CountInv a w0 lg0 sem0 s → ErrInv a w0 lg0 s →
  task_step a i setOk s = Some s' →
  ErrInv a w0 lg0 s'.
Proof.
  intros Hci Hei Hs _.
  assert (Hpc : pc s ≠ MOpen).
  { intros Hpc. rewrite (ci_open _ _ _ _ _ Hci Hpc) in Hs. done. }
  destruct (Hei Hpc) as (pre & Hlines & Herr & Hmain & Hcnt).
  destruct (task_step_frame _ _ _ _ _ Hs)
    as (Hpc' & _ & Hc' & Hcl' & Hsc' & Hlen').
  destruct (task_step_counters _ _ _ _ _ Hs) as [_ Her'].
  exists pre. rewrite Hsc', Her', Hpc', Hc'.
  assert (Hsame : failuresCounted lg0 pre s' = failuresCounted lg0 pre s);
    [|by rewrite Hsame].
  unfold failuresCounted. rewrite Hpc', Hc', Hlen'.
  unfold task_step, insertAppsInstalled in Hs.
  destruct (tasks s !! i) as [t|] eqn:Hi; [|done].
  cases_of Hs;
    match type of Hs with
    | context [<[i := ?y]> (tasks s)] =>
        pose proof (sum_list_with_insert atLog _ _ _ y Hi) as Hlog
    | _ => idtac
    end;
    simplify_eq; simpl;
    rewrite ?insertErrors_app, ?falses_app; simpl;
    unfold atLog in *;
    repeat match goal with Ht : tpc t = _ |- _ => rewrite Ht in Hlog end;
    simpl in *; lia.
Qed.

Lemma ErrInv_run a w0 lg0 sem0 sched s s' :
  Z.of_nat (length (linesOf w0 (filename a))) < 2 ^ 63 →
  Inv a s → CountInv a w0 lg0 sem0 s → ErrInv a w0 lg0 s →
  run a sched s = Some s' →
  ErrInv a w0 lg0 s'.
Proof.
  intros Hlen. revert s.
  induction sched as [|act sched IH]; intros s Hinv Hci Hei Hrun; simpl in *.
  - by injection Hrun as <-.
  - destruct (step a act s) as [s1|] eqn:Hstep; [|done].
    assert (Hrun1 : run a [act] s = Some s1) by (simpl; by rewrite Hstep).
    apply (IH s1); [by eapply Inv_run|by eapply CountInv_run| |done].
    destruct act; simpl in Hstep.
    + by eapply ErrInv_main_step.
    + by eapply ErrInv_counter_step.
    + by eapply ErrInv_task_step.
Qed.

(** X17: The counters never count a line twice: in every state a call of
    [processFile] reaches, under whatever schedule, [processed] and [errors] are
    not negative and together at most the number of lines of the file that are
    not blank. The unsynchronized [errors++] can lose a failure; it cannot
    invent one. *)
Theorem counters_never_exceed_the_lines a sched w lg s :
  Z.of_nat (length (linesOf w (filename a))) < 2 ^ 63 →
  run a sched (enter w lg 0) = Some s →
  0 ≤ processed s ∧ 0 ≤ errors s
  ∧ processed s + errors s ≤ Z.of_nat (nonBlank (linesOf w (filename a))).
Proof.
  intros Hlen Hrun.
  pose proof (CountInv_run a w lg 0%nat sched _ _ Hlen (Inv_enter a w lg)
                (CountInv_enter a w lg 0%nat) Hrun) as Hci.
  pose proof (ErrInv_run a w lg 0%nat sched _ _ Hlen (Inv_enter a w lg)
                (CountInv_enter a w lg 0%nat) (ErrInv_enter a w lg 0%nat) Hrun)
    as Hei.
  assert (pc s = MOpen ∨ pc s ≠ MOpen) as [Hpc|Hpc]
    by (destruct (pc s); (by left) || by right).
  { rewrite (ci_open _ _ _ _ _ Hci Hpc). simpl. lia. }
  destruct (Hei Hpc) as (pre & Hlines & Herr & _).
  destruct (failuresCounted_bound _ _ _ _ pre _ Hci Hpc) as [Hb Hp0].
  rewrite Hlines, nonBlank_app. lia.
Qed.

End Failures.

(** * The further properties at concrete inputs *)

Lemma parsed_record_well_formed_witness :
  ∃ r lg, @parseAppsInstalled extern Cases.mixedLine = (inr r, lg)
    ∧ DevType r ≠ "" ∧ DevID r ≠ ""
    ∧ Forall (λ app, 0 ≤ app ≤ 4294967295) (Apps r)
    ∧ Forall (λ e, e = LogNotAllDigits Cases.mixedLine) lg
    ∧ ∃ rawApps,
        Split (TrimSpace Cases.mixedLine) (byte 9) !! 4%nat = Some rawApps
        ∧ (length (Apps r) + length lg ≤ length (Split rawApps ","))%nat.
Proof.
  eexists _, _. split; [vm_compute; reflexivity|].
  apply (@parsed_record_well_formed extern Cases.mixedLine).
  vm_compute. reflexivity.
Defined.

Lemma parse_error_tells_first_failed_check_witness :
  @parseAppsInstalled extern Cases.badLatitude = (inl InvalidCoordinateLat, [])
  ∧ ∃ latStr,
      Split (TrimSpace Cases.badLatitude) (byte 9) !! 2%nat = Some latStr
      ∧ @ParseFloat extern latStr = None.
Proof.
  split; [by vm_compute|].
  refine (proj1 (proj2 (proj2 (proj2
    (@parse_error_tells_first_failed_check extern Cases.badLatitude
       InvalidCoordinateLat [] _)))) eq_refl).
  by vm_compute.
Defined.

Lemma unopenable_file_is_skipped_witness :
  os_Open Cases.unreadable (filename Runs.args) = None
  ∧ ∃ s, @processFile extern Runs.args [AMain] Cases.unreadable [] 0 = Some s
      ∧ world s = Cases.unreadable
      ∧ logs s = [LogProcessing "a.gz"; LogOpenError "a.gz"]
      ∧ tasks s = [] ∧ counter s = CNone ∧ semaphore s = 0%nat.
Proof.
  split; [by vm_compute|].
  eexists. split; [vm_compute; reflexivity|].
  refine (proj2 (@unopenable_file_is_skipped extern Runs.args [AMain]
                   Cases.unreadable [] 0 _ _ _)); by vm_compute.
Defined.

Lemma non_gzip_file_is_skipped_witness :
  ∃ s, @processFile extern Runs.args [AMain] Cases.plainText [] 0 = Some s
    ∧ world s = Cases.plainText
    ∧ logs s = [LogProcessing "a.gz"; LogGzipError "a.gz"]
    ∧ tasks s = [] ∧ counter s = CNone ∧ semaphore s = 0%nat.
Proof.
  eexists. split; [vm_compute; reflexivity|].
  refine (proj2 (@non_gzip_file_is_skipped extern Runs.args [AMain]
                   Cases.plainText [] 0
                   {| modTime := 1; readable := true; body := NotGzip |}
                   _ _ _ _)); by vm_compute.
Defined.

Lemma processFile_touches_only_its_file_witness :
  ∃ s, @run extern Runs.args Runs.sleepTooShort (enter Runs.oneLine [] 0) = Some s
    ∧ (pc s ≠ MReturn → world s = Runs.oneLine)
    ∧ (world s = Runs.oneLine
       ∨ world s = fst (@dotRename extern Runs.oneLine (filename Runs.args)))
    ∧ (∀ p, p ≠ filename Runs.args → p ≠ @dotPath extern (filename Runs.args) →
         files (world s) !! p = files Runs.oneLine !! p)
    ∧ (world s ≠ Runs.oneLine →
       files (world s) !! @dotPath extern (filename Runs.args)
       = files Runs.oneLine !! filename Runs.args).
Proof.
  eexists. split; [vm_compute; reflexivity|].
  apply (@processFile_touches_only_its_file extern Runs.args Runs.sleepTooShort
           Runs.oneLine [] 0).
  vm_compute. reflexivity.
Defined.

Lemma processFile_joins_its_tasks_witness :
  ∃ s, @processFile extern Runs.args Runs.sleepTooShort Runs.oneLine [] 0 = Some s
    ∧ length (tasks s) = 1%nat
    ∧ Forall (λ t, tpc t = TExit ∧ released t = 1%nat) (tasks s)
    ∧ wg s = 0%nat ∧ semaphore s = 0%nat.
Proof.
  eexists. split; [vm_compute; reflexivity|]. split; [by vm_compute|].
  apply (@processFile_joins_its_tasks extern Runs.args Runs.sleepTooShort
           Runs.oneLine []).
  vm_compute. reflexivity.
Defined.

Lemma line_failure_counted_on_the_spot_witness :
  ∃ s1 s2,
    @main_step extern Runs.args Cases.atUnknown = Some s1
    ∧ @main_step extern Runs.args s1 = Some s2
    ∧ pc s2 = MScan ∧ scanner s2 = [Runs.goodLine]
    ∧ errors s2 = wrap64 (errors Cases.atUnknown + 1)
    ∧ processed s2 = processed Cases.atUnknown
    ∧ tasks s2 = tasks Cases.atUnknown ∧ wg s2 = wg Cases.atUnknown
    ∧ semaphore s2 = semaphore Cases.atUnknown
    ∧ resultChan s2 = resultChan Cases.atUnknown
    ∧ logs s2 = logs Cases.atUnknown
                  ++ snd (@parseAppsInstalled extern
                            (TrimSpace Cases.unknownDevice))
                  ++ match fst (@parseAppsInstalled extern
                                  (TrimSpace Cases.unknownDevice)) with
                     | inl _ => []
                     | inr apps => [LogUnknownDevice (DevType apps)]
                     end.
Proof.
  apply (@line_failure_counted_on_the_spot extern Runs.config "a.gz"
           Cases.atUnknown Cases.unknownDevice [Runs.goodLine]).
  - by vm_compute.
  - by vm_compute.
  - by vm_compute.
  - vm_compute. intros Hin.
    do 4 (inversion Hin as [|? ? ? Hin']; subst; clear Hin; rename Hin' into Hin).
    inversion Hin.
Defined.

Lemma processFile_never_deadlocks_witness :
  ∃ s, @run extern Runs.args Runs.bothInsideIncrement
         (enter Runs.twoLines [] 0) = Some s
    ∧ pc s ≠ MReturn
    ∧ ∃ act s', @step extern Runs.args act s = Some s'.
Proof.
  eexists. split; [vm_compute; reflexivity|]. split; [by vm_compute|].
  apply (@processFile_never_deadlocks extern Runs.args
           Runs.bothInsideIncrement Runs.twoLines []).
  - vm_compute. lia.
  - vm_compute. reflexivity.
  - by vm_compute.
Defined.

Lemma sortFileInfos_keeps_sorted_input_witness :
  ascending Cases.sortedInfos
  ∧ sortFileInfos Cases.sortedInfos = Cases.sortedInfos.
Proof.
  assert (Hasc : ascending Cases.sortedInfos).
  { intros a b x y Hab Ha Hb.
    destruct a as [|[|[|a]]], b as [|[|[|b]]]; simpl in Ha, Hb;
      simplify_eq; simpl; lia. }
  split; [exact Hasc|].
  apply (sortFileInfos_keeps_sorted_input Cases.sortedInfos Hasc).
Defined.

Lemma sortFileInfos_order_of_discovery_irrelevant_witness :
  sortFileInfos (Cases.lastInfo :: Cases.distinctInfos)
  = sortFileInfos (Cases.distinctInfos ++ [Cases.lastInfo]).
Proof.
  apply (sortFileInfos_order_of_discovery_irrelevant
           (Cases.lastInfo :: Cases.distinctInfos)
           (Cases.distinctInfos ++ [Cases.lastInfo])).
  - apply Permutation_cons_append.
  - apply (bool_decide_unpack _). by vm_compute.
Defined.

Lemma main_processes_the_statable_files_witness :
  ∃ w' lg',
    @main extern Runs.config ["t1.gz"; "gone.gz"; "t3.gz"]
      [Runs.emptyFileRun; Runs.emptyFileRun] Runs.threeFiles = Some (w', lg')
    ∧ started lg' ≡ₚ filter (λ f, is_Some (os_Stat Runs.threeFiles f))
                       ["t1.gz"; "gone.gz"; "t3.gz"]
    ∧ (∀ f, os_Stat Runs.threeFiles f = None → f ∉ started lg')
    ∧ (∃ mid, lg' = [LogStarted (Pattern Runs.config) (Dry Runs.config)]
                    ++ (LogStatError
                          <$> filter (λ f, os_Stat Runs.threeFiles f = None)
                                ["t1.gz"; "gone.gz"; "t3.gz"])
                    ++ mid ++ [LogFinished]).
Proof.
  eexists _, _. split; [vm_compute; reflexivity|].
  eapply (@main_processes_the_statable_files extern Runs.config
           ["t1.gz"; "gone.gz"; "t3.gz"]
           [Runs.emptyFileRun; Runs.emptyFileRun] Runs.threeFiles).
  vm_compute. reflexivity.
Defined.

Lemma processFile_sequential_run_witness :
  ∃ s, @processFile extern Runs.args
         (@sequentialRun extern Runs.args Cases.accepting
            [Runs.goodLine; "garbage"])
         Runs.twoLines [] 0 = Some s
    ∧ processed s = 1 ∧ errors s = 1
    ∧ counter s = CExit ∧ resultChan s = []
    ∧ files (world s) !! ".a.gz" = Some (Runs.gz [Runs.goodLine; "garbage"])
    ∧ files (world s) !! "a.gz" = None.
Proof.
  destruct (@processFile_sequential_run extern Runs.args Cases.accepting
              Runs.twoLines [] (Runs.gz [Runs.goodLine; "garbage"])
              [Runs.goodLine; "garbage"] false)
    as (s & Hs & Hp & He & _ & Hc & Hch & _ & _ & Hmoved & _).
  - by vm_compute.
  - reflexivity.
  - vm_compute. lia.
  - by vm_compute.
  - destruct Hmoved as (Hdot & Hgone & _); [by vm_compute|].
    exists s. split; [exact Hs|]. split; [exact Hp|]. split; [exact He|].
    split; [exact Hc|]. split; [exact Hch|]. split; [exact Hdot|].
    by apply Hgone.
Defined.

Lemma processFile_steps_bounded_witness :
  (length Runs.counted
   ≤ 12 * length (linesOf Runs.oneLine (filename Runs.args)) + 10)%nat.
Proof.
  eapply (@processFile_steps_bounded extern Runs.args Runs.counted
            Runs.oneLine [] 0).
  vm_compute. reflexivity.
Defined.

Lemma processed_exact_once_counted_witness :
  ∃ s, @processFile extern Runs.args Runs.lostUpdate Runs.twoLines [] 0
       = Some s
    ∧ counter s = CExit
    ∧ processed s
      = Z.of_nat (length (tasks s))
        - Z.of_nat (insertErrors (logs s) - insertErrors []).
Proof.
  eexists. split; [vm_compute; reflexivity|]. split; [by vm_compute|].
  apply (@processed_exact_once_counted extern Runs.args Runs.lostUpdate
           Runs.twoLines []).
  - by vm_compute.
  - vm_compute. reflexivity.
  - by vm_compute.
Defined.

Lemma counters_never_exceed_the_lines_witness :
  ∃ s, @run extern Runs.args Runs.lostUpdate (enter Runs.twoLines [] 0)
       = Some s
    ∧ errors s = 1
    ∧ 0 ≤ processed s ∧ 0 ≤ errors s
    ∧ processed s + errors s
      ≤ Z.of_nat (nonBlank (linesOf Runs.twoLines (filename Runs.args))).
Proof.
  eexists. split; [vm_compute; reflexivity|]. split; [by vm_compute|].
  apply (@counters_never_exceed_the_lines extern Runs.args Runs.lostUpdate
           Runs.twoLines []).
  - by vm_compute.
  - vm_compute. reflexivity.
Defined.
